(** * ApiTokenStore: row aggregation and store operations

    A shallow embedding of the API-token store: the fold that turns the flat
    rows of the token/project/environment join into one token per secret
    ([tokenRowReducer], [toTokens]) and the store operations built on it
    ([getAll], [getAllActive], [get], [exists_], [insert], [delete],
    [deleteAll], [setExpiry], [markSeenAt]).

    Instants ([Date]) are integers.  The accumulator of the fold is a plain
    JavaScript object: besides its own properties, kept in creation order,
    it answers for the property names every object inherits, and
    [Object.values] lists the properties whose name is an array index first.
    The storage is the three tables as lists of rows.  What the code leaves
    to the storage is a parameter of the operations: the order in which the
    rows of a query come back, the statements the storage refuses, whether
    deleting a token row removes its link rows, and how the column
    [environment] of [api_tokens] is given back.  The timers around the
    queries only report to the metrics event bus and are left out. *)

From Stdlib Require Import List String Ascii ZArith NArith Bool Lia Permutation.
Import ListNotations.
Local Open Scope string_scope.
Local Open Scope list_scope.

Set Implicit Arguments.

(** ** Data model *)

(** The enumeration [ApiTokenType] is declared outside the store; its values
    are carried around unchanged, as the strings they are at run time. *)
Definition ApiTokenType := string.

(** An instant. *)
Definition Date := Z.

Definition ALL : string := "*".

(** A flat row handed to the aggregation: the token columns plus at most one
    project and one environment ([None] is null or undefined). *)
Module Row.
Record t := mk {
  secret : string;
  username : string;
  type : ApiTokenType;
  expires_at : option Date;
  created_at : Date;
  seen_at : option Date;
  project : option string;
  environment : option string
}.
End Row.
Abbreviation ITokenRow := Row.t.

(** The aggregated token ([IApiToken]) built by the reducer. *)
Module Token.
Record t := mk {
  secret : string;
  username : string;
  type : ApiTokenType;
  project : string;
  projects : list string;
  environment : string;
  environments : list string;
  expiresAt : option Date;
  createdAt : Date
}.

(** [currentToken.projects = l; currentToken.project = j] *)
Definition set_projects (l : list string) (j : string) (tk : t) : t :=
  mk (secret tk) (username tk) (type tk) j l
     (environment tk) (environments tk) (expiresAt tk) (createdAt tk).

(** [currentToken.environments = l; currentToken.environment = j] *)
Definition set_environments (l : list string) (j : string) (tk : t) : t :=
  mk (secret tk) (username tk) (type tk) (project tk) (projects tk)
     j l (expiresAt tk) (createdAt tk).
End Token.
Abbreviation IApiToken := Token.t.

(** What the store throws: its own [NotFoundError], an error of the storage,
    or a [TypeError] of the language. *)
Inductive Error : Type :=
| NotFoundError (message : string)
| StorageError (message : string)
| TypeError.

(** ** JavaScript helpers *)

(** Truthiness of a nullable string: null and the empty string are falsy. *)
Definition truthy (v : option string) : bool :=
  match v with
  | Some s => negb (String.eqb s "")
  | None => false
  end.

Arguments truthy : simpl never.

(** [Array.prototype.join] on an array of strings. *)
Definition join (sep : string) (l : list string) : string := String.concat sep l.

(** Modelled from the spec: [isAll] is imported from types/models/api-token,
    which is not part of the sources at hand.  The aggregator is described as
    clearing "the wildcard default" on the first concrete entry: a list is
    "all" when it is the wildcard alone. *)
Definition isAll (values : list string) : bool :=
  match values with
  | [v] => String.eqb v ALL
  | _ => false
  end.

(** The property names every object inherits from [Object.prototype]. *)
Definition inheritedNames : list string :=
  ["constructor"; "__proto__"; "toString"; "toLocaleString"; "valueOf";
   "hasOwnProperty"; "isPrototypeOf"; "propertyIsEnumerable";
   "__defineGetter__"; "__defineSetter__"; "__lookupGetter__";
   "__lookupSetter__"].

Definition inherited (key : string) : bool :=
  existsb (String.eqb key) inheritedNames.

(** The value of a decimal digit. *)
Definition digit (c : ascii) : option N :=
  let n := N_of_ascii c in
  if (48 <=? n)%N && (n <=? 57)%N then Some (n - 48)%N else None.

Fixpoint digits (s : string) (value : N) : option N :=
  match s with
  | EmptyString => Some value
  | String c rest =>
      match digit c with
      | Some d => digits rest (10 * value + d)%N
      | None => None
      end
  end.

(** A property name is an array index when it is the canonical decimal form
    of an integer from 0 to 2^32 - 2. *)
Definition arrayIndex (key : string) : option N :=
  match key with
  | EmptyString => None
  | String c rest =>
      if Ascii.eqb c "0"%char then
        match rest with
        | EmptyString => Some 0%N
        | _ => None
        end
      else
        match digits key 0%N with
        | Some n => if (n <=? 4294967294)%N then Some n else None
        | None => None
        end
  end.

(** ** The accumulator: a plain object keyed by secret *)

(** The own properties of the object, in creation order. *)
Definition Acc := list (string * IApiToken).

(** The own property [key], if any. *)
Fixpoint own (key : string) (acc : Acc) : option IApiToken :=
  match acc with
  | [] => None
  | (k, v) :: rest => if String.eqb key k then Some v else own key rest
  end.

(** What [acc[key]] evaluates to: a token stored under the key; else, for an
    inherited name, a function or the prototype itself, which is truthy and
    has no property [projects] or [environments]; else undefined. *)
Inductive Slot : Type :=
| Own (currentToken : IApiToken)
| Inherited
| Missing.

(** [acc[key]] *)
Definition lookup (key : string) (acc : Acc) : Slot :=
  match own key acc with
  | Some v => Own v
  | None => if inherited key then Inherited else Missing
  end.

(** In-place mutation of the object stored under [key]; the entry keeps its
    position. *)
Fixpoint mutate (key : string) (f : IApiToken -> IApiToken) (acc : Acc) : Acc :=
  match acc with
  | [] => []
  | (k, v) :: rest =>
      if String.eqb key k then (k, f v) :: rest
      else (k, v) :: mutate key f rest
  end.

(** An entry whose key is the array index [n], put in its place among
    entries sorted by index. *)
Fixpoint insertIndexed (n : N) (kv : string * IApiToken) (sorted : Acc) : Acc :=
  match sorted with
  | [] => [kv]
  | kv' :: rest =>
      match arrayIndex (fst kv') with
      | Some m => if (n <=? m)%N then kv :: sorted
                  else kv' :: insertIndexed n kv rest
      | None => kv :: sorted
      end
  end.

(** The entries whose key is an array index, in ascending order. *)
Fixpoint indexed (acc : Acc) : Acc :=
  match acc with
  | [] => []
  | kv :: rest =>
      match arrayIndex (fst kv) with
      | Some n => insertIndexed n kv (indexed rest)
      | None => indexed rest
      end
  end.

(** The entries whose key is no array index, in creation order. *)
Definition named (acc : Acc) : Acc :=
  filter (fun kv => match arrayIndex (fst kv) with
                    | Some _ => false
                    | None => true
                    end) acc.

(** [Object.values]: array indices first, in ascending order, then the other
    names in creation order. *)
Definition values (acc : Acc) : list IApiToken :=
  map snd (indexed acc ++ named acc).

(** ** The row aggregator *)

(** The entry seeded for a secret seen for the first time. *)
Definition seed (token : ITokenRow) : IApiToken :=
  {| Token.secret := Row.secret token;
     Token.username := Row.username token;
     Token.type := Row.type token;
     Token.project := ALL;
     Token.projects := [ALL];
     Token.environment := ALL;
     Token.environments := [ALL];
     Token.expiresAt := Row.expires_at token;
     Token.createdAt := Row.created_at token |}.

(** The block guarded by [if (tokenRow.project)], for a stored token. *)
Definition pushProject (tokenRow : ITokenRow) (currentToken : IApiToken) : IApiToken :=
  match Row.project tokenRow with
  | Some p =>
      if truthy (Some p) then
        let projects :=
          (if isAll (Token.projects currentToken) then []
           else Token.projects currentToken) ++ [p] in
        Token.set_projects projects (join "," projects) currentToken
      else currentToken
  | None => currentToken
  end.

(** The block guarded by [if (tokenRow.environment)], for a stored token. *)
Definition pushEnvironment (tokenRow : ITokenRow) (currentToken : IApiToken) : IApiToken :=
  match Row.environment tokenRow with
  | Some e =>
      if truthy (Some e) then
        let environments :=
          (if isAll (Token.environments currentToken) then []
           else Token.environments currentToken) ++ [e] in
        Token.set_environments environments (join "," environments) currentToken
      else currentToken
  | None => currentToken
  end.

(** One step of the fold.  Nothing is seeded when [acc[secret]] is truthy,
    which it also is for an inherited name; [currentToken] is then not a
    token, its [projects] and [environments] are undefined, not the wildcard
    list, and the [push] of either guarded block throws. *)
Definition tokenRowReducer (acc : Acc) (tokenRow : ITokenRow) : Error + Acc :=
  let acc :=
    match lookup (Row.secret tokenRow) acc with
    | Missing => acc ++ [(Row.secret tokenRow, seed tokenRow)]
    | Own _ | Inherited => acc
    end in
  match lookup (Row.secret tokenRow) acc with
  | Own _ =>
      inr (mutate (Row.secret tokenRow)
                  (fun currentToken =>
                     pushEnvironment tokenRow (pushProject tokenRow currentToken))
                  acc)
  | Inherited | Missing =>
      if truthy (Row.project tokenRow) || truthy (Row.environment tokenRow)
      then inl TypeError
      else inr acc
  end.

(** [rows.reduce(tokenRowReducer, acc)] *)
Fixpoint reduce (rows : list ITokenRow) (acc : Acc) : Error + Acc :=
  match rows with
  | [] => inr acc
  | tokenRow :: rest =>
      match tokenRowReducer acc tokenRow with
      | inl err => inl err
      | inr acc' => reduce rest acc'
      end
  end.

Definition toTokens (rows : list ITokenRow) : Error + list IApiToken :=
  match reduce rows [] with
  | inl err => inl err
  | inr tokens => inr (values tokens)
  end.

(** ** Notions used to state the properties *)

(** A row that makes the fold throw: its secret is an inherited name and it
    carries a project or an environment. *)
Definition throwing (r : ITokenRow) : bool :=
  inherited (Row.secret r) && (truthy (Row.project r) || truthy (Row.environment r)).

(** The rows whose secret is not an inherited name. *)
Definition ordinaryRows (rows : list ITokenRow) : list ITokenRow :=
  filter (fun r => negb (inherited (Row.secret r))) rows.

(** What one row does to the token stored under its secret. *)
Definition absorb (tk : IApiToken) (r : ITokenRow) : IApiToken :=
  pushEnvironment r (pushProject r tk).

(** A step of the fold on a row whose secret is not an inherited name. *)
Definition reduceOwn (acc : Acc) (tokenRow : ITokenRow) : Acc :=
  let acc :=
    match own (Row.secret tokenRow) acc with
    | None => acc ++ [(Row.secret tokenRow, seed tokenRow)]
    | Some _ => acc
    end in
  mutate (Row.secret tokenRow) (fun currentToken => absorb currentToken tokenRow) acc.

(** The tokens of such rows, in the order in which their secrets are met. *)
Definition tokensOf (rows : list ITokenRow) : list IApiToken :=
  map snd (fold_left reduceOwn rows []).

(** The token such rows give one secret, if any. *)
Definition tokenOf (secret : string) (rows : list ITokenRow) : option IApiToken :=
  own secret (fold_left reduceOwn rows []).

(** The rows of one secret, in row order. *)
Definition rowsOf (secret : string) (rows : list ITokenRow) : list ITokenRow :=
  filter (fun r => String.eqb (Row.secret r) secret) rows.

(** The truthy values of a column, in row order, one per row. *)
Fixpoint carried (vals : list (option string)) : list string :=
  match vals with
  | [] => []
  | Some v :: rest => if truthy (Some v) then v :: carried rest else carried rest
  | None :: rest => carried rest
  end.

Definition projectsOf (secret : string) (rows : list ITokenRow) : list string :=
  carried (map Row.project (rowsOf secret rows)).

Definition environmentsOf (secret : string) (rows : list ITokenRow) : list string :=
  carried (map Row.environment (rowsOf secret rows)).

(** The distinct elements of a list, in order of first appearance. *)
Fixpoint firstSeen (l : list string) : list string :=
  match l with
  | [] => []
  | x :: rest => x :: filter (fun y => negb (String.eqb y x)) (firstSeen rest)
  end.

(** What one row does to one of the two lists of a token. *)
Definition pushScope (cur : list string) (v : option string) : list string :=
  match v with
  | Some p => if truthy (Some p) then (if isAll cur then [] else cur) ++ [p] else cur
  | None => cur
  end.

(** The scalar fields of a token. *)
Definition scalars (tk : IApiToken) :=
  (Token.secret tk, Token.username tk, Token.type tk,
   Token.expiresAt tk, Token.createdAt tk).

(** The joined strings follow the lists. *)
Definition joined (tk : IApiToken) : Prop :=
  Token.project tk = join "," (Token.projects tk) /\
  Token.environment tk = join "," (Token.environments tk).

(** An accumulator built by the fold: one entry per key, each filed under
    its own secret. *)
Definition keyed (acc : Acc) : Prop :=
  NoDup (map fst acc) /\
  Forall (fun kv => Token.secret (snd kv) = fst kv) acc.

(** No own property of the accumulator has an inherited name. *)
Definition clean (acc : Acc) : Prop :=
  Forall (fun kv => inherited (fst kv) = false) acc.

(** The key is not among [keys]. *)
Definition fresh (keys : list string) (y : string) : bool :=
  negb (existsb (String.eqb y) keys).

(** What is read back for a dimension whose values are [linked]. *)
Definition readBack (linked : list string) : list string :=
  match linked with
  | [] => [ALL]
  | _ => linked
  end.

(** A list without its leading wildcards. *)
Fixpoint dropLeading (l : list string) : list string :=
  match l with
  | [] => []
  | x :: rest => if String.eqb x ALL then dropLeading rest else l
  end.

(** ** The storage *)

Definition TABLE : string := "api_tokens".
Definition API_LINK_TABLE_PROJECT : string := "api_token_project".
Definition API_LINK_TABLE_ENVIRONMENT : string := "api_token_environment".

(** The columns of the three tables, as the code names them: those of
    [ITokenInsert] and the column [environment] that [toRow] fills in for
    [api_tokens], and the pair the raw inserts write for each link table. *)
Definition columns (table : string) : list string :=
  if String.eqb table TABLE then
    ["id"; "secret"; "username"; "type"; "environment"; "expires_at";
     "created_at"; "seen_at"]
  else if String.eqb table API_LINK_TABLE_PROJECT then ["secret"; "project"]
  else if String.eqb table API_LINK_TABLE_ENVIRONMENT then ["secret"; "environment"]
  else [].

(** The table an unqualified column name refers to, among the tables of a
    statement: the storage refuses a name that no table has and a name that
    more than one has. *)
Definition resolve (tables : list string) (column : string) : string + string :=
  match filter (fun table => existsb (String.eqb column) (columns table)) tables with
  | [] => inl (String.append "column " (String.append column " does not exist"))
  | [table] => inr table
  | _ => inl (String.append "column reference " (String.append column " is ambiguous"))
  end.

(** The tables joined by [makeTokenProjectQuery]. *)
Definition joinTables : list string :=
  [TABLE; API_LINK_TABLE_PROJECT; API_LINK_TABLE_ENVIRONMENT].

(** A row of the table [api_tokens]; [environment] holds what [toRow] gave,
    [created_at] is assigned by the storage when the row is inserted. *)
Module Stored.
Record t := mk {
  secret : string;
  username : string;
  type : ApiTokenType;
  environment : option (list string);
  expires_at : option Date;
  created_at : Date;
  seen_at : option Date
}.
End Stored.
Abbreviation ITokenInsert := Stored.t.

(** The three tables: [api_tokens], and the link tables [api_token_project]
    and [api_token_environment] of pairs (secret, project) and
    (secret, environment). *)
Record Db := mkDb {
  api_tokens : list ITokenInsert;
  api_token_project : list (string * string);
  api_token_environment : list (string * string)
}.

Definition emptyDb : Db := mkDb [] [] [].

(** The request handed to [insert] ([IApiTokenCreate]); [projects] and
    [environments] may be undefined, which the code guards against. *)
Module Create.
Record t := mk {
  secret : string;
  username : string;
  type : ApiTokenType;
  projects : option (list string);
  environments : option (list string);
  expiresAt : option Date
}.
End Create.
Abbreviation IApiTokenCreate := Create.t.

(** The object [toRow] builds for the insert into [api_tokens]. *)
Module NewRow.
Record t := mk {
  username : string;
  secret : string;
  type : ApiTokenType;
  environment : option (list string);
  expires_at : option Date
}.
End NewRow.

(** What [insert] returns: the request spread out, the two joined strings
    and the creation instant read back from the storage. *)
Module Created.
Record t := mk {
  newToken : IApiTokenCreate;
  project : string;
  environment : string;
  createdAt : Date
}.
End Created.

(** The statements that change the storage. *)
Inductive Stmt : Type :=
| InsertToken (r : NewRow.t)
| RawInsertProject (secret project : string)
| RawInsertEnvironment (secret environment : string)
| DeleteWhereSecret (secret : string)
| DeleteAllTokens
| UpdateExpiresAt (secret : string) (expires_at : Date)
| UpdateSeenAtWhereIn (column : string) (values : list string) (seen_at : Date).

(** The store with its surroundings: the tables, the clock of the storage
    and of [new Date()], and what the logger received. *)
Record World := mkWorld {
  tables : Db;
  clock : Date;
  logged : list (string * Error)
}.

Definition withTables (db : Db) (w : World) : World :=
  mkWorld db (clock w) (logged w).

(** *** Reading *)

(** The link values joined to one secret by a left outer join: one per link
    row, or a single null when there is none. *)
Definition leftJoin (secret : string) (links : list (string * string)) : list (option string) :=
  match filter (fun l => String.eqb (fst l) secret) links with
  | [] => [None]
  | matching => map (fun l => Some (snd l)) matching
  end.

(** The rows of the query built by [makeTokenProjectQuery], listed token by
    token; the query has no ordering clause, and the order in which the
    storage gives the rows back is its own. *)
Definition makeTokenProjectQuery (db : Db) : list ITokenRow :=
  flat_map (fun tokens =>
    flat_map (fun project =>
      map (fun environment =>
             Row.mk (Stored.secret tokens) (Stored.username tokens)
                    (Stored.type tokens) (Stored.expires_at tokens)
                    (Stored.created_at tokens) (Stored.seen_at tokens)
                    project environment)
          (leftJoin (Stored.secret tokens) (api_token_environment db)))
      (leftJoin (Stored.secret tokens) (api_token_project db)))
    (api_tokens db).

Definition count (db : Db) : nat := List.length (api_tokens db).

(** [expires_at IS NULL OR expires_at > now()] *)
Definition notExpired (now : Date) (expires_at : option Date) : bool :=
  match expires_at with
  | None => true
  | Some e => Z.ltb now e
  end.

(** [SELECT EXISTS (SELECT 1 FROM api_tokens WHERE secret = ?)] *)
Definition exists_ (secret : string) (db : Db) : bool :=
  existsb (fun r => String.eqb (Stored.secret r) secret) (api_tokens db).

(** *** Writing *)

Definition toRow (newToken : IApiTokenCreate) : NewRow.t :=
  {| NewRow.username := Create.username newToken;
     NewRow.secret := Create.secret newToken;
     NewRow.type := Create.type newToken;
     NewRow.environment :=
       match Create.environments newToken with
       | Some environments => if isAll environments then None else Some environments
       | None => None
       end;
     NewRow.expires_at := Create.expiresAt newToken |}.

Definition setExpiresAt (e : option Date) (r : ITokenInsert) : ITokenInsert :=
  Stored.mk (Stored.secret r) (Stored.username r) (Stored.type r)
            (Stored.environment r) e (Stored.created_at r) (Stored.seen_at r).

Definition setSeenAt (d : option Date) (r : ITokenInsert) : ITokenInsert :=
  Stored.mk (Stored.secret r) (Stored.username r) (Stored.type r)
            (Stored.environment r) (Stored.expires_at r) (Stored.created_at r) d.

(** The text columns of [api_tokens] a filter can compare with strings. *)
Definition textColumn (column : string) (r : ITokenInsert) : option string :=
  if String.eqb column "secret" then Some (Stored.secret r)
  else if String.eqb column "username" then Some (Stored.username r)
  else if String.eqb column "type" then Some (Stored.type r)
  else None.

(** The link rows a cascade leaves when the token rows [deleted] go: those
    of other secrets. *)
Definition cascaded (deleted : list ITokenInsert) (links : list (string * string)) :
  list (string * string) :=
  filter (fun l => negb (existsb (fun r => String.eqb (Stored.secret r) (fst l)) deleted))
         links.

(** What a statement does to the tables when the storage carries it out.
    [cascade] tells whether the storage removes the link rows of the token
    rows it deletes.  An update filtered on membership in an empty list is sent
    as an update of no row and names no column; otherwise a column the table
    does not have is refused. *)
Definition perform (cascade : bool) (s : Stmt) (now : Date) (db : Db) : string + Db :=
  match s with
  | InsertToken r =>
      inr (mkDb (api_tokens db ++
                   [Stored.mk (NewRow.secret r) (NewRow.username r) (NewRow.type r)
                              (NewRow.environment r) (NewRow.expires_at r) now None])
                (api_token_project db) (api_token_environment db))
  | RawInsertProject secret project =>
      inr (mkDb (api_tokens db) (api_token_project db ++ [(secret, project)])
                (api_token_environment db))
  | RawInsertEnvironment secret environment =>
      inr (mkDb (api_tokens db) (api_token_project db)
                (api_token_environment db ++ [(secret, environment)]))
  | DeleteWhereSecret secret =>
      let deleted := filter (fun r => String.eqb (Stored.secret r) secret)
                            (api_tokens db) in
      let kept := filter (fun r => negb (String.eqb (Stored.secret r) secret))
                         (api_tokens db) in
      inr (if cascade
           then mkDb kept (cascaded deleted (api_token_project db))
                     (cascaded deleted (api_token_environment db))
           else mkDb kept (api_token_project db) (api_token_environment db))
  | DeleteAllTokens =>
      inr (if cascade
           then mkDb [] (cascaded (api_tokens db) (api_token_project db))
                     (cascaded (api_tokens db) (api_token_environment db))
           else mkDb [] (api_token_project db) (api_token_environment db))
  | UpdateExpiresAt secret expires_at =>
      inr (mkDb (map (fun r => if String.eqb (Stored.secret r) secret
                               then setExpiresAt (Some expires_at) r else r)
                     (api_tokens db))
                (api_token_project db) (api_token_environment db))
  | UpdateSeenAtWhereIn column values seen_at =>
      match values with
      | [] => inr db
      | _ =>
          match resolve [TABLE] column with
          | inl message => inl message
          | inr _ =>
              inr (mkDb (map (fun r =>
                                match textColumn column r with
                                | Some v => if existsb (String.eqb v) values
                                            then setSeenAt (Some seen_at) r else r
                                | None => r
                                end)
                             (api_tokens db))
                        (api_token_project db) (api_token_environment db))
          end
      end
  end.

(** Store operations that write: they read and change the world and either
    return a value or throw. *)
Definition M (A : Type) : Type := World -> (Error + A) * World.

Definition ret {A : Type} (a : A) : M A := fun w => (inr a, w).

Definition throw {A : Type} (e : Error) : M A := fun w => (inl e, w).

Definition bind {A B : Type} (m : M A) (k : A -> M B) : M B :=
  fun w =>
    match m w with
    | (inr a, w') => k a w'
    | (inl e, w') => (inl e, w')
    end.

Notation "x <- m ;; k" := (bind m (fun x => k))
  (at level 61, m at next level, right associativity).
Notation "m ;;; k" := (bind m (fun _ => k))
  (at level 61, right associativity).

(** [await Promise.all(tasks)]: the statements go to the one connection of
    the transaction in the order they were issued; the first failure rejects. *)
Fixpoint all (tasks : list (M unit)) : M unit :=
  match tasks with
  | [] => ret tt
  | task :: rest => task ;;; all rest
  end.

(** [try { body } catch (err) { handler(err) }] *)
Definition tryCatch {A : Type} (body : M A) (handler : Error -> M A) : M A :=
  fun w =>
    match body w with
    | (inr a, w') => (inr a, w')
    | (inl err, w') => handler err w'
    end.

(** [db.transaction(handler)]: when the handler throws, the tables are rolled
    back to what they were when the transaction began, and the error is
    thrown on. *)
Definition transaction {A : Type} (handler : M A) : M A :=
  fun w =>
    match handler w with
    | (inr a, w') => (inr a, w')
    | (inl err, w') => (inl err, withTables (tables w) w')
    end.

(** [logger.error(message, err)] *)
Definition logError (message : string) (err : Error) : M unit :=
  fun w => (inr tt, mkWorld (tables w) (clock w) (logged w ++ [(message, err)])).

Section Storage.

(** [ALL_PROJECTS] is imported from util/constants, which is not part of the
    sources at hand: the "all projects" sentinel is a parameter. *)
Variable ALL_PROJECTS : string.

(** The order in which the storage gives back the rows of a query. *)
Variable planner : list ITokenRow -> list ITokenRow.

(** How the storage gives back the column [environment] of [api_tokens]
    where [toRow] stored a list. *)
Variable columnText : list string -> string.

(** Whether the storage removes the link rows of a deleted token row. *)
Variable cascade : bool.

(** Which statements the storage throws on, in which state of the tables,
    and with which message. *)
Variable fault : Stmt -> Db -> option string.

(** [await this.makeTokenProjectQuery()] *)
Definition getAll (db : Db) : Error + list IApiToken :=
  let rows := planner (makeTokenProjectQuery db) in
  toTokens rows.

(** The filter names the column [expires_at] without a table. *)
Definition getAllActive (now : Date) (db : Db) : Error + list IApiToken :=
  match resolve joinTables "expires_at" with
  | inl message => inl (StorageError message)
  | inr _ =>
      let rows := planner (filter (fun r => notExpired now (Row.expires_at r))
                                  (makeTokenProjectQuery db)) in
      toTokens rows
  end.

(** The filter names the column [secret] without a table;
    [toTokens(row)[0]] is undefined when no row comes back. *)
Definition get (key : string) (db : Db) : Error + option IApiToken :=
  match resolve joinTables "secret" with
  | inl message => inl (StorageError message)
  | inr _ =>
      let row := planner (filter (fun r => String.eqb (Row.secret r) key)
                                 (makeTokenProjectQuery db)) in
      match toTokens row with
      | inl err => inl err
      | inr tokens => inr (nth_error tokens 0)
      end
  end.

(** Sending one statement to the storage. *)
Definition exec (s : Stmt) : M unit :=
  fun w =>
    match fault s (tables w) with
    | Some message => (inl (StorageError message), w)
    | None =>
        match perform cascade s (clock w) (tables w) with
        | inl message => (inl (StorageError message), w)
        | inr db => (inr tt, withTables db w)
        end
    end.

(** [new Date()], and [created_at] as the storage returns it. *)
Definition now : M Date := fun w => (inr (clock w), w).

(** The handler [insert] passes to [db.transaction]. *)
Definition insertHandler (newToken : IApiTokenCreate) : M Created.t :=
  exec (InsertToken (toRow newToken)) ;;;
  created_at <- now ;;
  let updateProjectTasks :=
    map (fun project => exec (RawInsertProject (Create.secret newToken) project))
        (filter (fun project => negb (String.eqb project ALL_PROJECTS))
                (match Create.projects newToken with Some l => l | None => [] end)) in
  all updateProjectTasks ;;;
  let updateEnvironmentTasks :=
    map (fun environment =>
           exec (RawInsertEnvironment (Create.secret newToken) environment))
        (filter (fun environment => negb (String.eqb environment ALL))
                (match Create.environments newToken with Some l => l | None => [] end)) in
  all updateEnvironmentTasks ;;;
  ret {| Created.newToken := newToken;
         Created.project :=
           match Create.projects newToken with
           | Some l => if String.eqb (join "," l) "" then "*" else join "," l
           | None => "*"
           end;
         Created.environment :=
           match Create.environments newToken with
           | Some l => if String.eqb (join "," l) "" then "*" else join "," l
           | None => "*"
           end;
         Created.createdAt := created_at |}.

Definition insert (newToken : IApiTokenCreate) : M Created.t :=
  transaction (insertHandler newToken).

Definition delete (secret : string) : M unit := exec (DeleteWhereSecret secret).

Definition deleteAll : M unit := exec DeleteAllTokens.

(** A row of [api_tokens] as [RETURNING *] gives it back: the columns of the
    table, hence no [project], and its own column [environment]. *)
Definition returned (r : ITokenInsert) : ITokenRow :=
  Row.mk (Stored.secret r) (Stored.username r) (Stored.type r)
         (Stored.expires_at r) (Stored.created_at r) (Stored.seen_at r)
         None (option_map columnText (Stored.environment r)).

(** The update is sent for the table [api_tokens] alone, the joins of the
    query are not part of it, and the rows it returns are the updated rows
    of that table. *)
Definition setExpiry (secret : string) (expiresAt : Date) : M (option IApiToken) :=
  exec (UpdateExpiresAt secret expiresAt) ;;;
  fun w =>
    let rows := planner (map returned
                           (filter (fun r => String.eqb (Stored.secret r) secret)
                                   (api_tokens (tables w)))) in
    if Nat.ltb 0 (List.length rows) then
      match toTokens rows with
      | inl err => throw err w
      | inr tokens => ret (nth_error tokens 0) w
      end
    else throw (NotFoundError "Could not find api-token.") w.

Definition markSeenAt (secrets : list string) : M unit :=
  now_ <- now ;;
  tryCatch
    (exec (UpdateSeenAtWhereIn "secrets" secrets now_))
    (fun err => logError "Could not update lastSeen, error: " err).

End Storage.

(** A storage that gives rows back in the order of the tables. *)
Definition tableOrder : list ITokenRow -> list ITokenRow := fun rows => rows.

(** A storage that gives rows back in the opposite order. *)
Definition reverseOrder : list ITokenRow -> list ITokenRow := fun rows => rev rows.

(** A storage that never throws of its own. *)
Definition noFault : Stmt -> Db -> option string := fun _ _ => None.

(** A storage that enforces the key of [api_tokens]: it refuses a token row
    whose secret is already stored. *)
Definition uniqueSecret : Stmt -> Db -> option string :=
  fun s db =>
    match s with
    | InsertToken r =>
        if exists_ (NewRow.secret r) db then Some "duplicate key" else None
    | _ => None
    end.

(** A storage that refuses every link to the project [bad]. *)
Definition rejectProject (bad : string) : Stmt -> Db -> option string :=
  fun s _ =>
    match s with
    | RawInsertProject _ project =>
        if String.eqb project bad then Some "constraint violation" else None
    | _ => None
    end.

(** A storage that throws on every update. *)
Definition throwsOnUpdate : Stmt -> Db -> option string :=
  fun s _ =>
    match s with
    | UpdateExpiresAt _ _ | UpdateSeenAtWhereIn _ _ _ => Some "connection lost"
    | _ => None
    end.

(** The order in which [Object.values] lists properties, on the keys alone. *)
Fixpoint insertIndex (n : N) (k : string) (sorted : list string) : list string :=
  match sorted with
  | [] => [k]
  | k' :: rest =>
      match arrayIndex k' with
      | Some m => if (n <=? m)%N then k :: sorted else k' :: insertIndex n k rest
      | None => k :: sorted
      end
  end.

Fixpoint indexedKeys (keys : list string) : list string :=
  match keys with
  | [] => []
  | k :: rest =>
      match arrayIndex k with
      | Some n => insertIndex n k (indexedKeys rest)
      | None => indexedKeys rest
      end
  end.

Definition enumeration (keys : list string) : list string :=
  indexedKeys keys ++
  filter (fun k => match arrayIndex k with Some _ => false | None => true end) keys.

(** ** Test data *)

Definition row (s : string) (p e : option string) : ITokenRow :=
  Row.mk s "user" "client" None 0%Z None p e.

(** Two projects of one token. *)
Definition rowsTwoProjects : list ITokenRow :=
  [row "s1" (Some "p1") None; row "s1" (Some "p2") None].

(** One project and two environments of one token: the join repeats the
    project on both rows. *)
Definition rowsRepeated : list ITokenRow :=
  [row "s1" (Some "p1") (Some "e1"); row "s1" (Some "p1") (Some "e2")].


(** A link row that holds the wildcard itself, after and before a concrete
    project. *)
Definition rowsWildcardLast : list ITokenRow :=
  [row "s1" (Some "p1") None; row "s1" (Some "*") None].

Definition rowsWildcardFirst : list ITokenRow :=
  [row "s1" (Some "*") None; row "s1" (Some "p1") None].

(** A link row whose project is the empty string. *)
Definition rowsEmptyProject : list ITokenRow :=
  [row "s1" (Some "") None].



Definition rowsConstructor : list ITokenRow :=
  [row "constructor" (Some "p1") None].

(** Rows of two tokens, one after the other. *)
Definition rowsS1 : list ITokenRow :=
  [Row.mk "s1" "user" "client" None 0%Z None (Some "*") (Some "e1");
   Row.mk "s1" "user" "client" None 0%Z None (Some "p1") (Some "e1")].

Definition rowsS2 : list ITokenRow :=
  [Row.mk "s2" "user" "admin" (Some 7%Z) 1%Z None None None].

(** The token all of the rows of "s1" seed. *)
Definition tokenS1 (project : string) (projects : list string)
           (environment : string) (environments : list string) : IApiToken :=
  Token.mk "s1" "user" "client" project projects environment environments None 0%Z.

(** ** Notions used to state the properties of the store *)

(** The storage gives back the rows of a query, in an order of its own. *)
Definition reorders (planner : list ITokenRow -> list ITokenRow) : Prop :=
  forall rows, Permutation (planner rows) rows.

(** The rows the join gives one stored token. *)
Definition rowsFor (db : Db) (tokens : ITokenInsert) : list ITokenRow :=
  flat_map (fun project =>
    map (fun environment =>
           Row.mk (Stored.secret tokens) (Stored.username tokens)
                  (Stored.type tokens) (Stored.expires_at tokens)
                  (Stored.created_at tokens) (Stored.seen_at tokens)
                  project environment)
        (leftJoin (Stored.secret tokens) (api_token_environment db)))
    (leftJoin (Stored.secret tokens) (api_token_project db)).

(** The rows of the join that pass the filter of [getAllActive]. *)
Definition activeRows (now : Date) (db : Db) : list ITokenRow :=
  filter (fun r => notExpired now (Row.expires_at r)) (makeTokenProjectQuery db).

(** The projects and environments [insert] writes link rows for. *)
Definition linkedProjects (ALL_PROJECTS : string) (newToken : IApiTokenCreate) :
  list string :=
  filter (fun project => negb (String.eqb project ALL_PROJECTS))
         (match Create.projects newToken with Some l => l | None => [] end).

Definition linkedEnvironments (newToken : IApiTokenCreate) : list string :=
  filter (fun environment => negb (String.eqb environment ALL))
         (match Create.environments newToken with Some l => l | None => [] end).

(** The tables after a successful [insert]. *)
Definition inserted (ALL_PROJECTS : string) (newToken : IApiTokenCreate)
           (now : Date) (db : Db) : Db :=
  mkDb (api_tokens db ++
          [Stored.mk (Create.secret newToken) (Create.username newToken)
                     (Create.type newToken) (NewRow.environment (toRow newToken))
                     (Create.expiresAt newToken) now None])
       (api_token_project db ++
          map (pair (Create.secret newToken)) (linkedProjects ALL_PROJECTS newToken))
       (api_token_environment db ++
          map (pair (Create.secret newToken)) (linkedEnvironments newToken)).

(** The tables after the update of [setExpiry]. *)
Definition withExpiry (secret : string) (expiresAt : Date) (db : Db) : Db :=
  mkDb (map (fun r => if String.eqb (Stored.secret r) secret
                      then setExpiresAt (Some expiresAt) r else r)
            (api_tokens db))
       (api_token_project db) (api_token_environment db).

(** The number of stored token rows with a secret. *)
Definition stored (secret : string) (db : Db) : nat :=
  List.length (filter (fun t => String.eqb (Stored.secret t) secret) (api_tokens db)).

(** The link rows of other secrets. *)
Definition otherLinks (secret : string) (links : list (string * string)) :
  list (string * string) :=
  filter (fun l => negb (String.eqb (fst l) secret)) links.

(** ** Test data for the store *)

Definition world0 : World := mkWorld emptyDb 5%Z [].

(** The request of the example: two projects, every environment. *)
Definition requestS1 : IApiTokenCreate :=
  Create.mk "s1" "user" "client" (Some ["p1"; "p2"]) (Some ["*"]) None.

(** The store after the request of the example was inserted. *)
Definition world1 : World :=
  mkWorld (mkDb [Stored.mk "s1" "user" "client" None None 5%Z None]
                [("s1", "p1"); ("s1", "p2")] [])
          5%Z [].

(** The store after the expiry of "s1" was set to 9. *)
Definition world1' : World :=
  mkWorld (mkDb [Stored.mk "s1" "user" "client" None (Some 9%Z) 5%Z None]
                [("s1", "p1"); ("s1", "p2")] [])
          5%Z [].

(** A store with two tokens: "s1" with two projects, "s2" without links. *)
Definition world2 : World :=
  mkWorld (mkDb [Stored.mk "s1" "user" "client" None None 5%Z None;
                 Stored.mk "s2" "user" "admin" None (Some 7%Z) 5%Z None]
                [("s1", "p1"); ("s1", "p2")] [])
          5%Z [].

(** A store with an expired, a live and a never-expiring token, read at
    instant 10. *)
Definition dbExpiry : Db :=
  mkDb [Stored.mk "old" "user" "client" None (Some 3%Z) 0%Z None;
        Stored.mk "live" "user" "client" None (Some 20%Z) 0%Z None;
        Stored.mk "forever" "user" "client" None None 0%Z None]
       [("old", "p1"); ("live", "p1"); ("live", "p2")] [].



(** The token of "s1" as stored in [world1]. *)
Definition storedS1 (project : string) (projects : list string)
           (expiresAt : option Date) : IApiToken :=
  Token.mk "s1" "user" "client" project projects "*" ["*"] expiresAt 5%Z.

(** The rows [RETURNING *] gives for the token rows of a secret. *)
Definition returnedRows (columnText : list string -> string) (secret : string)
           (db : Db) : list ITokenRow :=
  map (returned columnText)
      (filter (fun r => String.eqb (Stored.secret r) secret) (api_tokens db)).

(** A storage that gives a list stored in a text column back as an array
    literal. *)
Definition arrayLiteral (l : list string) : string :=
  String.append "{" (String.append (join "," l) "}").

(** A store whose token "constructor" has a value in its own column
    [environment]. *)
Definition worldConstructor : World :=
  mkWorld (mkDb [Stored.mk "constructor" "user" "client" (Some ["e1"]) None 5%Z None]
                [] [])
          5%Z [].

(** ** Lists *)

Lemma filter_all {A : Type} (p : A -> bool) (l : list A) :
  (forall y, In y l -> p y = true) -> filter p l = l.
Proof. intros H. now apply forallb_filter_id, forallb_forall. Qed.

Lemma filter_none {A : Type} (p : A -> bool) (l : list A) :
  (forall y, In y l -> p y = false) -> filter p l = [].
Proof.
  induction l as [|x l IH]; simpl; intros H.
  - reflexivity.
  - rewrite (H x (or_introl eq_refl)). apply IH. intros y Hy. apply H. now right.
Qed.

Lemma flat_map_same {A B : Type} (f g : A -> list B) (l : list A) :
  (forall x, In x l -> f x = g x) -> flat_map f l = flat_map g l.
Proof.
  induction l as [|x l IH]; simpl; intros H; [reflexivity|].
  rewrite (H x (or_introl eq_refl)). f_equal. apply IH.
  intros y Hy. apply H. now right.
Qed.

Lemma length_filter_split {A : Type} (p : A -> bool) (l : list A) :
  List.length (filter (fun x => negb (p x)) l) + List.length (filter p l) =
  List.length l.
Proof.
  induction l as [|x l IH]; simpl; [reflexivity|].
  destruct (p x); simpl; lia.
Qed.

(** ** The accumulator as a map *)

Lemma own_app_last (k k' : string) (v : IApiToken) (acc : Acc) :
  own k (acc ++ [(k', v)]) =
  match own k acc with
  | Some x => Some x
  | None => if String.eqb k k' then Some v else None
  end.
Proof.
  induction acc as [|[k0 v0] acc IH]; simpl.
  - reflexivity.
  - destruct (String.eqb k k0); [reflexivity | exact IH].
Qed.

Lemma own_mutate_same (k : string) (f : IApiToken -> IApiToken) (acc : Acc) :
  own k (mutate k f acc) = option_map f (own k acc).
Proof.
  induction acc as [|[k0 v0] acc IH]; simpl.
  - reflexivity.
  - destruct (String.eqb k k0) eqn:E; simpl; rewrite E; [reflexivity | exact IH].
Qed.

Lemma own_mutate_other (k k' : string) (f : IApiToken -> IApiToken) (acc : Acc) :
  k <> k' -> own k (mutate k' f acc) = own k acc.
Proof.
  intros Hne. induction acc as [|[k0 v0] acc IH]; simpl.
  - reflexivity.
  - destruct (String.eqb k' k0) eqn:E; simpl.
    + apply String.eqb_eq in E. subst k0.
      destruct (String.eqb k k') eqn:E'; [|reflexivity].
      apply String.eqb_eq in E'. contradiction.
    + destruct (String.eqb k k0); [reflexivity | exact IH].
Qed.

Lemma keys_mutate (k : string) (f : IApiToken -> IApiToken) (acc : Acc) :
  map fst (mutate k f acc) = map fst acc.
Proof.
  induction acc as [|[k0 v0] acc IH]; simpl.
  - reflexivity.
  - destruct (String.eqb k k0); simpl; [reflexivity | now rewrite IH].
Qed.

Lemma own_None_keys (k : string) (acc : Acc) :
  own k acc = None <-> ~ In k (map fst acc).
Proof.
  induction acc as [|[k0 v0] acc IH]; simpl.
  - tauto.
  - destruct (String.eqb k k0) eqn:E.
    + apply String.eqb_eq in E. subst. split; [discriminate | tauto].
    + apply String.eqb_neq in E. rewrite IH. split.
      * intros H [H'|H']; [congruence | tauto].
      * tauto.
Qed.

(** One step of the fold, seen from one key. *)
Lemma own_reducer_same (acc : Acc) (r : ITokenRow) :
  own (Row.secret r) (reduceOwn acc r) =
  Some (absorb (match own (Row.secret r) acc with
                | Some tk => tk
                | None => seed r
                end) r).
Proof.
  unfold reduceOwn.
  destruct (own (Row.secret r) acc) as [tk|] eqn:E;
    rewrite own_mutate_same.
  - rewrite E. reflexivity.
  - rewrite own_app_last, E, String.eqb_refl. reflexivity.
Qed.

Lemma own_reducer_other (acc : Acc) (r : ITokenRow) (k : string) :
  k <> Row.secret r ->
  own k (reduceOwn acc r) = own k acc.
Proof.
  intros Hne. unfold reduceOwn.
  rewrite own_mutate_other by assumption.
  destruct (own (Row.secret r) acc); [reflexivity|].
  rewrite own_app_last.
  destruct (own k acc); [reflexivity|].
  apply String.eqb_neq in Hne. now rewrite Hne.
Qed.

Lemma keys_reducer (acc : Acc) (r : ITokenRow) :
  map fst (reduceOwn acc r) =
  match own (Row.secret r) acc with
  | Some _ => map fst acc
  | None => map fst acc ++ [Row.secret r]
  end.
Proof.
  unfold reduceOwn. rewrite keys_mutate.
  destruct (own (Row.secret r) acc); [reflexivity|].
  now rewrite map_app.
Qed.

(** The fold, seen from one key: the entry under [s] is the first row of [s]
    seeded and then every row of [s] absorbed, in row order. *)
Lemma own_fold (s : string) (rows : list ITokenRow) (acc : Acc) :
  own s (fold_left reduceOwn rows acc) =
  match own s acc with
  | Some tk => Some (fold_left absorb (rowsOf s rows) tk)
  | None =>
      match rowsOf s rows with
      | [] => None
      | r0 :: rs => Some (fold_left absorb (r0 :: rs) (seed r0))
      end
  end.
Proof.
  revert acc. induction rows as [|r rows IH]; intros acc; simpl.
  - destruct (own s acc); reflexivity.
  - rewrite IH. destruct (String.eqb (Row.secret r) s) eqn:E.
    + apply String.eqb_eq in E. subst s.
      rewrite own_reducer_same.
      destruct (own (Row.secret r) acc); reflexivity.
    + apply String.eqb_neq in E.
      rewrite own_reducer_other by congruence. reflexivity.
Qed.

Lemma tokenOf_spec (s : string) (rows : list ITokenRow) :
  tokenOf s rows =
  match rowsOf s rows with
  | [] => None
  | r0 :: rs => Some (fold_left absorb (r0 :: rs) (seed r0))
  end.
Proof. unfold tokenOf. now rewrite own_fold. Qed.

(** ** What a row leaves alone and what it changes *)

Lemma scalars_absorb (tk : IApiToken) (r : ITokenRow) :
  scalars (absorb tk r) = scalars tk.
Proof.
  unfold absorb, pushEnvironment, pushProject.
  destruct (Row.project r) as [p|], (Row.environment r) as [e|];
    try destruct (truthy (Some p)); try destruct (truthy (Some e)); reflexivity.
Qed.

Lemma scalars_fold (rs : list ITokenRow) (tk : IApiToken) :
  scalars (fold_left absorb rs tk) = scalars tk.
Proof.
  revert tk. induction rs as [|r rs IH]; intros tk; simpl.
  - reflexivity.
  - now rewrite IH, scalars_absorb.
Qed.

Lemma projects_absorb (tk : IApiToken) (r : ITokenRow) :
  Token.projects (absorb tk r) = pushScope (Token.projects tk) (Row.project r).
Proof.
  unfold absorb, pushEnvironment, pushProject, pushScope.
  destruct (Row.project r) as [p|], (Row.environment r) as [e|];
    try destruct (truthy (Some p)); try destruct (truthy (Some e)); reflexivity.
Qed.

Lemma environments_absorb (tk : IApiToken) (r : ITokenRow) :
  Token.environments (absorb tk r) =
  pushScope (Token.environments tk) (Row.environment r).
Proof.
  unfold absorb, pushEnvironment, pushProject, pushScope.
  destruct (Row.project r) as [p|], (Row.environment r) as [e|];
    try destruct (truthy (Some p)); try destruct (truthy (Some e)); reflexivity.
Qed.

Lemma projects_fold (rs : list ITokenRow) (tk : IApiToken) :
  Token.projects (fold_left absorb rs tk) =
  fold_left pushScope (map Row.project rs) (Token.projects tk).
Proof.
  revert tk. induction rs as [|r rs IH]; intros tk; simpl.
  - reflexivity.
  - now rewrite IH, projects_absorb.
Qed.

Lemma environments_fold (rs : list ITokenRow) (tk : IApiToken) :
  Token.environments (fold_left absorb rs tk) =
  fold_left pushScope (map Row.environment rs) (Token.environments tk).
Proof.
  revert tk. induction rs as [|r rs IH]; intros tk; simpl.
  - reflexivity.
  - now rewrite IH, environments_absorb.
Qed.

Lemma joined_seed (r : ITokenRow) : joined (seed r).
Proof. split; reflexivity. Qed.

Lemma joined_absorb (tk : IApiToken) (r : ITokenRow) :
  joined tk -> joined (absorb tk r).
Proof.
  intros [Hp He]. unfold joined, absorb, pushEnvironment, pushProject.
  destruct (Row.project r) as [p|], (Row.environment r) as [e|];
    try destruct (truthy (Some p)); try destruct (truthy (Some e));
    simpl; auto.
Qed.

Lemma joined_fold (rs : list ITokenRow) (tk : IApiToken) :
  joined tk -> joined (fold_left absorb rs tk).
Proof.
  revert tk. induction rs as [|r rs IH]; intros tk H; simpl.
  - exact H.
  - apply IH, joined_absorb, H.
Qed.

(** ** The two lists of a token *)

Lemma isAll_spec (l : list string) : isAll l = true <-> l = [ALL].
Proof.
  destruct l as [|v [|v' l]]; simpl; split; try discriminate.
  - intros H. apply String.eqb_eq in H. now subst.
  - intros H. injection H as ->. apply String.eqb_refl.
Qed.

Lemma isAll_snoc (cur : list string) (v : string) :
  v <> ALL -> isAll (cur ++ [v]) = false.
Proof.
  intros Hv. destruct (isAll (cur ++ [v])) eqn:E; [|reflexivity].
  apply isAll_spec in E. destruct cur as [|c [|c' cur]]; simpl in E.
  - injection E as ->. contradiction.
  - discriminate.
  - discriminate.
Qed.

Lemma pushScope_truthy (cur : list string) (v : string) :
  truthy (Some v) = true ->
  pushScope cur (Some v) = (if isAll cur then [] else cur) ++ [v].
Proof. intros T. unfold pushScope. now rewrite T. Qed.

Lemma pushScope_falsy (cur : list string) (v : string) :
  truthy (Some v) = false -> pushScope cur (Some v) = cur.
Proof. intros T. unfold pushScope. now rewrite T. Qed.

Lemma fold_pushScope_concrete (vals : list (option string)) (cur : list string) :
  ~ In ALL (carried vals) -> isAll cur = false ->
  fold_left pushScope vals cur = cur ++ carried vals.
Proof.
  revert cur. induction vals as [|[v|] vals IH]; intros cur Hw Hc;
    cbn [fold_left carried] in *.
  - now rewrite app_nil_r.
  - destruct (truthy (Some v)) eqn:T.
    + rewrite pushScope_truthy, Hc by assumption.
      rewrite IH.
      * now rewrite <- app_assoc.
      * intros H. apply Hw. now right.
      * apply isAll_snoc. intros ->. apply Hw. now left.
    + rewrite pushScope_falsy by assumption. now apply IH.
  - now apply IH.
Qed.

Lemma fold_pushScope_seed (vals : list (option string)) :
  ~ In ALL (carried vals) ->
  fold_left pushScope vals [ALL] =
  match carried vals with
  | [] => [ALL]
  | l => l
  end.
Proof.
  induction vals as [|[v|] vals IH]; intros Hw; cbn [fold_left carried] in *.
  - reflexivity.
  - destruct (truthy (Some v)) eqn:T.
    + rewrite pushScope_truthy by assumption.
      replace (isAll [ALL]) with true by reflexivity.
      rewrite fold_pushScope_concrete.
      * reflexivity.
      * intros H. apply Hw. now right.
      * apply (isAll_snoc []). intros ->. apply Hw. now left.
    + rewrite pushScope_falsy by assumption. now apply IH.
  - now apply IH.
Qed.

(** Rows without a truthy value leave a list as it is. *)
Lemma fold_pushScope_none (vals : list (option string)) (cur : list string) :
  carried vals = [] -> fold_left pushScope vals cur = cur.
Proof.
  revert cur. induction vals as [|[v|] vals IH]; intros cur H;
    cbn [fold_left carried] in *.
  - reflexivity.
  - destruct (truthy (Some v)) eqn:T; [discriminate|].
    rewrite pushScope_falsy by assumption. now apply IH.
  - now apply IH.
Qed.

Lemma firstSeen_NoDup (l : list string) : NoDup l -> firstSeen l = l.
Proof.
  induction l as [|x l IH]; intros H; simpl.
  - reflexivity.
  - inversion H as [|? ? Hx Hl]; subst. rewrite IH by assumption.
    f_equal. rewrite forallb_filter_id; [reflexivity|].
    apply forallb_forall. intros y Hy.
    destruct (String.eqb y x) eqn:E; [|reflexivity].
    apply String.eqb_eq in E. subst. contradiction.
Qed.

(** The token of a secret, field by field. *)
Lemma tokenOf_fields (s : string) (rows : list ITokenRow) (tk : IApiToken) :
  tokenOf s rows = Some tk ->
  exists r0 rs,
    rowsOf s rows = r0 :: rs /\
    scalars tk = scalars (seed r0) /\
    Token.projects tk = fold_left pushScope (map Row.project (rowsOf s rows)) [ALL] /\
    Token.environments tk =
      fold_left pushScope (map Row.environment (rowsOf s rows)) [ALL] /\
    joined tk.
Proof.
  rewrite tokenOf_spec. destruct (rowsOf s rows) as [|r0 rs] eqn:E; [discriminate|].
  intros H. injection H as <-. exists r0, rs. split; [reflexivity|].
  split; [exact (scalars_fold (r0 :: rs) (seed r0))|].
  split; [exact (projects_fold (r0 :: rs) (seed r0))|].
  split; [exact (environments_fold (r0 :: rs) (seed r0))|].
  exact (joined_fold (r0 :: rs) (joined_seed r0)).
Qed.

(** ** The keys of the accumulator and the order of the output *)

Lemma secret_absorb (tk : IApiToken) (r : ITokenRow) :
  Token.secret (absorb tk r) = Token.secret tk.
Proof.
  pose proof (scalars_absorb tk r) as H. unfold scalars in H. congruence.
Qed.

Lemma Forall_mutate (P : string * IApiToken -> Prop) (k : string)
      (f : IApiToken -> IApiToken) (acc : Acc) :
  (forall k' v, P (k', v) -> P (k', f v)) ->
  Forall P acc -> Forall P (mutate k f acc).
Proof.
  intros Hf. induction 1 as [|[k0 v0] acc H0 H IH]; simpl.
  - constructor.
  - destruct (String.eqb k k0); constructor; auto.
Qed.

Lemma keyed_reducer (acc : Acc) (r : ITokenRow) :
  keyed acc -> keyed (reduceOwn acc r).
Proof.
  intros [Hnd Hk]. split.
  - rewrite keys_reducer. destruct (own (Row.secret r) acc) eqn:E.
    + assumption.
    + apply own_None_keys in E.
      apply NoDup_app; [assumption | repeat constructor; intros [] |].
      intros x Hx [<-|[]]. contradiction.
  - unfold reduceOwn. apply Forall_mutate.
    + intros k' v H. simpl in *.
      change (Token.secret (absorb v r) = k'). now rewrite secret_absorb.
    + destruct (own (Row.secret r) acc); [assumption|].
      apply Forall_app. split; [assumption|]. now repeat constructor.
Qed.

Lemma keyed_fold (rows : list ITokenRow) (acc : Acc) :
  keyed acc -> keyed (fold_left reduceOwn rows acc).
Proof.
  revert acc. induction rows as [|r rows IH]; intros acc H; simpl.
  - exact H.
  - apply IH, keyed_reducer, H.
Qed.

Lemma keyed_nil : keyed [].
Proof. split; constructor. Qed.

Lemma In_own (acc : Acc) (k : string) (v : IApiToken) :
  NoDup (map fst acc) -> In (k, v) acc -> own k acc = Some v.
Proof.
  induction acc as [|[k0 v0] acc IH]; simpl; intros Hnd Hin.
  - contradiction.
  - inversion Hnd as [|? ? Hk0 Hnd']; subst.
    destruct Hin as [Heq|Hin].
    + injection Heq as -> ->. now rewrite String.eqb_refl.
    + destruct (String.eqb k k0) eqn:E.
      * apply String.eqb_eq in E. subst. exfalso. apply Hk0.
        change k0 with (fst (k0, v)). now apply in_map.
      * now apply IH.
Qed.

Lemma own_In (acc : Acc) (k : string) (v : IApiToken) :
  own k acc = Some v -> In (k, v) acc.
Proof.
  induction acc as [|[k0 v0] acc IH]; simpl; intros H.
  - discriminate.
  - destruct (String.eqb k k0) eqn:E.
    + apply String.eqb_eq in E. injection H as ->. subst. now left.
    + right. now apply IH.
Qed.

(** Every token of the output is the token of its own secret, and the token
    of a secret is in the output. *)
Lemma tokensOf_tokenOf (rows : list ITokenRow) (tk : IApiToken) :
  In tk (tokensOf rows) <-> tokenOf (Token.secret tk) rows = Some tk.
Proof.
  unfold tokensOf, tokenOf.
  destruct (keyed_fold rows keyed_nil) as [Hnd Hk].
  set (acc := fold_left reduceOwn rows []) in *.
  split.
  - intros H. apply in_map_iff in H. destruct H as [[k v] [Hv Hin]].
    simpl in Hv. subst v.
    rewrite Forall_forall in Hk. specialize (Hk _ Hin). simpl in Hk.
    rewrite Hk. now apply In_own.
  - intros H. apply own_In in H.
    change tk with (snd (Token.secret tk, tk)). now apply in_map.
Qed.

Lemma tokenOf_secret (s : string) (rows : list ITokenRow) (tk : IApiToken) :
  tokenOf s rows = Some tk -> Token.secret tk = s.
Proof.
  intros H. apply tokenOf_fields in H.
  destruct H as (r0 & rs & Hrows & Hsc & _).
  assert (Hin : In r0 (rowsOf s rows)) by (rewrite Hrows; now left).
  apply filter_In in Hin. destruct Hin as [_ Hs]. apply String.eqb_eq in Hs.
  unfold scalars in Hsc. simpl in Hsc. congruence.
Qed.

Lemma tokenOf_In (s : string) (rows : list ITokenRow) (tk : IApiToken) :
  tokenOf s rows = Some tk -> In tk (tokensOf rows).
Proof.
  intros H. apply tokensOf_tokenOf.
  now rewrite (tokenOf_secret _ _ H).
Qed.

Lemma filter_filter_and {A : Type} (p q : A -> bool) (l : list A) :
  filter p (filter q l) = filter (fun y => q y && p y) l.
Proof.
  induction l as [|x l IH]; simpl.
  - reflexivity.
  - destruct (q x); simpl; [destruct (p x)|]; now rewrite IH.
Qed.

Lemma existsb_eqb_In (y : string) (keys : list string) :
  existsb (String.eqb y) keys = true <-> In y keys.
Proof.
  rewrite existsb_exists. split.
  - intros [x [Hx E]]. apply String.eqb_eq in E. now subst.
  - intros H. exists y. split; [assumption | apply String.eqb_refl].
Qed.

Lemma keys_fold (rows : list ITokenRow) (acc : Acc) :
  map fst (fold_left reduceOwn rows acc) =
  map fst acc ++ filter (fresh (map fst acc)) (firstSeen (map Row.secret rows)).
Proof.
  revert acc. induction rows as [|r rows IH]; intros acc; simpl.
  - now rewrite app_nil_r.
  - rewrite IH, keys_reducer.
    destruct (own (Row.secret r) acc) eqn:E.
    + assert (Hin : In (Row.secret r) (map fst acc)).
      { destruct (in_dec string_dec (Row.secret r) (map fst acc)) as [H|H];
          [assumption|]. apply own_None_keys in H. congruence. }
      unfold fresh at 2. apply existsb_eqb_In in Hin. rewrite Hin. simpl.
      f_equal. rewrite filter_filter_and. apply filter_ext_in.
      intros y _. unfold fresh.
      destruct (String.eqb y (Row.secret r)) eqn:Ey; [|reflexivity].
      apply String.eqb_eq in Ey. subst y. now rewrite Hin.
    + apply own_None_keys in E.
      assert (Hf : fresh (map fst acc) (Row.secret r) = true).
      { unfold fresh. destruct (existsb (String.eqb (Row.secret r)) (map fst acc)) eqn:Ex;
          [|reflexivity]. apply existsb_eqb_In in Ex. contradiction. }
      rewrite Hf. rewrite <- app_assoc. simpl. do 2 f_equal.
      rewrite filter_filter_and. apply filter_ext.
      intros y. unfold fresh. rewrite existsb_app. simpl.
      rewrite orb_false_r, negb_orb. apply andb_comm.
Qed.

Lemma keyed_secrets (acc : Acc) :
  keyed acc -> map Token.secret (map snd acc) = map fst acc.
Proof.
  intros [_ Hk].
  induction Hk as [|[k v] acc H0 H IH]; simpl.
  - reflexivity.
  - simpl in H0. now rewrite H0, IH.
Qed.

(** The output lists one token per distinct secret, in the order in which
    the secrets are first met. *)
Lemma tokensOf_secrets (rows : list ITokenRow) :
  map Token.secret (tokensOf rows) = firstSeen (map Row.secret rows).
Proof.
  unfold tokensOf.
  rewrite (keyed_secrets (keyed_fold rows keyed_nil)), keys_fold. simpl.
  apply forallb_filter_id, forallb_forall. reflexivity.
Qed.

Lemma firstSeen_In (l : list string) (x : string) :
  In x (firstSeen l) <-> In x l.
Proof.
  induction l as [|y l IH]; simpl.
  - tauto.
  - rewrite filter_In, IH. split.
    + tauto.
    + intros [H|H]; [now left|].
      destruct (String.eqb x y) eqn:E.
      * apply String.eqb_eq in E. now left.
      * right. now split.
Qed.

Lemma firstSeen_NoDup_out (l : list string) : NoDup (firstSeen l).
Proof.
  induction l as [|y l IH]; simpl.
  - constructor.
  - constructor.
    + intros H. apply filter_In in H. destruct H as [_ H].
      now rewrite String.eqb_refl in H.
    + now apply NoDup_filter.
Qed.

Lemma carried_In (vals : list (option string)) (x : string) :
  In x (carried vals) -> In (Some x) vals.
Proof.
  induction vals as [|[v|] vals IH]; simpl; intros H.
  - contradiction.
  - destruct (truthy (Some v)).
    + destruct H as [->|H]; [now left | right; now apply IH].
    + right. now apply IH.
  - right. now apply IH.
Qed.

Lemma projectsOf_In (s : string) (rows : list ITokenRow) (x : string) :
  In x (projectsOf s rows) ->
  exists r, In r rows /\ Row.secret r = s /\ Row.project r = Some x.
Proof.
  intros H. apply carried_In, in_map_iff in H. destruct H as [r [Hp Hr]].
  apply filter_In in Hr. destruct Hr as [Hr Hs]. apply String.eqb_eq in Hs.
  now exists r.
Qed.



(** ** More about the lists and the rows *)

Lemma carried_no_value (vals : list (option string)) :
  (forall v, In v vals -> v = None) -> carried vals = [].
Proof.
  induction vals as [|[v|] vals IH]; simpl; intros H.
  - reflexivity.
  - specialize (H (Some v) (or_introl eq_refl)). discriminate.
  - apply IH. intros v Hv. apply H. now right.
Qed.


Lemma find_rowsOf (s : string) (rows : list ITokenRow) :
  find (fun r => String.eqb (Row.secret r) s) rows = hd_error (rowsOf s rows).
Proof.
  unfold rowsOf. induction rows as [|r rows IH]; simpl.
  - reflexivity.
  - destruct (String.eqb (Row.secret r) s); [reflexivity | exact IH].
Qed.

Lemma Permutation_rowsOf (s : string) (rows rows' : list ITokenRow) :
  Permutation rows rows' -> Permutation (rowsOf s rows) (rowsOf s rows').
Proof.
  unfold rowsOf. induction 1 as [|x l l' H IH|x y l|l l' l'' H1 IH1 H2 IH2]; simpl.
  - constructor.
  - destruct (String.eqb (Row.secret x) s); [now constructor | assumption].
  - destruct (String.eqb (Row.secret x) s), (String.eqb (Row.secret y) s);
      try apply Permutation_refl. apply perm_swap.
  - now apply Permutation_trans with (filter (fun r => String.eqb (Row.secret r) s) l').
Qed.

Lemma Permutation_carried (vals vals' : list (option string)) :
  Permutation vals vals' -> Permutation (carried vals) (carried vals').
Proof.
  induction 1 as [|x l l' H IH|x y l|l l' l'' H1 IH1 H2 IH2]; simpl.
  - constructor.
  - destruct x as [v|]; [destruct (truthy (Some v))|];
      [now constructor | assumption | assumption].
  - destruct x as [v|], y as [v'|];
      try destruct (truthy (Some v)); try destruct (truthy (Some v'));
      try apply Permutation_refl. apply perm_swap.
  - now apply Permutation_trans with (carried l').
Qed.

Lemma tokensOf_first_row (rows : list ITokenRow) (tk : IApiToken) :
  In tk (tokensOf rows) ->
  exists r0,
    In r0 (rowsOf (Token.secret tk) rows) /\
    hd_error (rowsOf (Token.secret tk) rows) = Some r0 /\
    scalars tk = scalars (seed r0).
Proof.
  intros Hin. apply tokensOf_tokenOf in Hin.
  destruct (tokenOf_fields _ _ Hin) as (r0 & rs & Hrows & Hsc & _).
  exists r0. rewrite Hrows. split; [now left|]. split; [reflexivity | exact Hsc].
Qed.

(** Once a list is neither empty nor the wildcard alone, every row with a
    value appends to it. *)
Lemma fold_pushScope_settled (vals : list (option string)) (cur : list string) :
  cur <> [] -> isAll cur = false ->
  fold_left pushScope vals cur = cur ++ carried vals.
Proof.
  revert cur. induction vals as [|[v|] vals IH]; intros cur Hne Hc;
    cbn [fold_left carried].
  - now rewrite app_nil_r.
  - destruct (truthy (Some v)) eqn:T.
    + rewrite pushScope_truthy, Hc by assumption.
      rewrite IH.
      * now rewrite <- app_assoc.
      * destruct cur; [contradiction | discriminate].
      * destruct cur as [|c [|c' cur]]; [contradiction | reflexivity | reflexivity].
    + rewrite pushScope_falsy by assumption. now apply IH.
  - now apply IH.
Qed.

Lemma fold_pushScope_general (vals : list (option string)) :
  fold_left pushScope vals [ALL] = readBack (dropLeading (carried vals)).
Proof.
  induction vals as [|[v|] vals IH]; cbn [fold_left carried].
  - reflexivity.
  - destruct (truthy (Some v)) eqn:T.
    + rewrite pushScope_truthy by assumption.
      replace (isAll [ALL]) with true by reflexivity.
      cbn [app dropLeading]. destruct (String.eqb v ALL) eqn:E.
      * apply String.eqb_eq in E. subst v. exact IH.
      * rewrite fold_pushScope_settled.
        -- reflexivity.
        -- discriminate.
        -- simpl. exact E.
    + rewrite pushScope_falsy by assumption. exact IH.
  - exact IH.
Qed.

Lemma dropLeading_In (l : list string) (x : string) :
  In x (dropLeading l) -> In x l.
Proof.
  induction l as [|y l IH]; simpl; [tauto|].
  destruct (String.eqb y ALL); [intros H; right; now apply IH | trivial].
Qed.

Lemma carried_nonempty (vals : list (option string)) :
  ~ In "" (carried vals).
Proof.
  induction vals as [|[v|] vals IH]; simpl; [tauto | | exact IH].
  destruct (truthy (Some v)) eqn:T; [|exact IH].
  intros [Hv|H]; [subst v; discriminate | contradiction].
Qed.

Lemma readBack_nonempty (l : list string) : readBack l <> [].
Proof. destruct l; discriminate. Qed.

Lemma readBack_In (l : list string) (x : string) :
  In x (readBack l) -> x = ALL \/ In x l.
Proof.
  destruct l as [|y l]; simpl.
  - intros [<-|[]]. now left.
  - intros H. now right.
Qed.


(** ** The object and its association list *)

Lemma insertIndexed_Permutation (n : N) (kv : string * IApiToken) (l : Acc) :
  Permutation (insertIndexed n kv l) (kv :: l).
Proof.
  induction l as [|kv' l IH]; simpl.
  - apply Permutation_refl.
  - destruct (arrayIndex (fst kv')) as [m|]; [|apply Permutation_refl].
    destruct (n <=? m)%N; [apply Permutation_refl|].
    apply Permutation_trans with (kv' :: kv :: l).
    + now constructor.
    + apply perm_swap.
Qed.

Lemma enumeration_Permutation (acc : Acc) :
  Permutation (indexed acc ++ named acc) acc.
Proof.
  induction acc as [|kv acc IH]; simpl.
  - constructor.
  - unfold named in *. simpl. destruct (arrayIndex (fst kv)) as [n|].
    + apply Permutation_trans with (kv :: (indexed acc ++ filter
        (fun kv0 => match arrayIndex (fst kv0) with Some _ => false | None => true end)
        acc)).
      * apply (Permutation_app_tail _ (insertIndexed_Permutation n kv (indexed acc))).
      * now constructor.
    + apply Permutation_trans with (kv :: (indexed acc ++ filter
        (fun kv0 => match arrayIndex (fst kv0) with Some _ => false | None => true end)
        acc)).
      * apply Permutation_sym, Permutation_middle.
      * now constructor.
Qed.

(** [Object.values] lists every stored token once. *)
Lemma values_Permutation (acc : Acc) : Permutation (values acc) (map snd acc).
Proof. unfold values. apply Permutation_map, enumeration_Permutation. Qed.

Lemma values_In (acc : Acc) (tk : IApiToken) :
  In tk (values acc) <-> In tk (map snd acc).
Proof.
  split; apply Permutation_in;
    [apply values_Permutation | apply Permutation_sym, values_Permutation].
Qed.

Lemma own_clean (acc : Acc) (k : string) :
  clean acc -> inherited k = true -> own k acc = None.
Proof.
  intros Hc Hk. induction Hc as [|[k0 v0] acc H0 Hc IH]; simpl.
  - reflexivity.
  - destruct (String.eqb k k0) eqn:E; [|exact IH].
    apply String.eqb_eq in E. subst k0. simpl in H0. congruence.
Qed.

(** ** The fold, row by row *)

(** A row whose secret is no inherited name. *)
Lemma reducer_ordinary (acc : Acc) (r : ITokenRow) :
  inherited (Row.secret r) = false ->
  tokenRowReducer acc r = inr (reduceOwn acc r).
Proof.
  intros Hk. unfold tokenRowReducer, reduceOwn, lookup. rewrite Hk.
  destruct (own (Row.secret r) acc) as [v|] eqn:E.
  - rewrite E. reflexivity.
  - rewrite own_app_last, E, String.eqb_refl. reflexivity.
Qed.

(** A row whose secret is an inherited name. *)
Lemma reducer_inherited (acc : Acc) (r : ITokenRow) :
  clean acc -> inherited (Row.secret r) = true ->
  tokenRowReducer acc r = if throwing r then inl TypeError else inr acc.
Proof.
  intros Hc Hk. unfold tokenRowReducer, lookup, throwing.
  cbv zeta. rewrite !(own_clean _ Hc Hk), !Hk. cbv iota.
  rewrite ?(own_clean _ Hc Hk), ?Hk. reflexivity.
Qed.

Lemma clean_keys (acc : Acc) :
  clean acc <-> Forall (fun k => inherited k = false) (map fst acc).
Proof. unfold clean. now rewrite Forall_map. Qed.

Lemma clean_reduceOwn (acc : Acc) (r : ITokenRow) :
  clean acc -> inherited (Row.secret r) = false -> clean (reduceOwn acc r).
Proof.
  intros Hc Hk. apply clean_keys. rewrite keys_reducer.
  apply clean_keys in Hc.
  destruct (own (Row.secret r) acc); [exact Hc|].
  apply Forall_app. split; [exact Hc | now repeat constructor].
Qed.

(** The fold throws exactly when it meets a row of an inherited name with a
    project or an environment; otherwise it skips the rows of inherited
    names and folds the others. *)
Lemma reduce_spec (rows : list ITokenRow) (acc : Acc) :
  clean acc ->
  reduce rows acc =
  if existsb throwing rows then inl TypeError
  else inr (fold_left reduceOwn (ordinaryRows rows) acc).
Proof.
  revert acc. induction rows as [|r rows IH]; intros acc Hc; simpl.
  - reflexivity.
  - destruct (inherited (Row.secret r)) eqn:Hk.
    + rewrite (reducer_inherited r Hc Hk).
      unfold throwing at 2. rewrite Hk. fold (throwing r).
      destruct (throwing r) eqn:T.
      * unfold throwing in T. rewrite Hk in T. simpl in T. rewrite T. reflexivity.
      * unfold throwing in T. rewrite Hk in T. simpl in T. rewrite T. simpl.
        now apply IH.
    + rewrite (reducer_ordinary acc r Hk). unfold throwing at 1. rewrite Hk.
      simpl. apply IH. now apply clean_reduceOwn.
Qed.

Lemma toTokens_spec (rows : list ITokenRow) :
  toTokens rows =
  if existsb throwing rows then inl TypeError
  else inr (values (fold_left reduceOwn (ordinaryRows rows) [])).
Proof.
  unfold toTokens. rewrite reduce_spec by constructor.
  destruct (existsb throwing rows); reflexivity.
Qed.

(** [toTokens] returns unless a row of an inherited name carries a project
    or an environment, and then it throws a [TypeError]. *)
Lemma toTokens_returns (rows : list ITokenRow) :
  existsb throwing rows = false ->
  exists tks, toTokens rows = inr tks.
Proof. intros H. rewrite toTokens_spec, H. eauto. Qed.

Lemma toTokens_throws (rows : list ITokenRow) (err : Error) :
  toTokens rows = inl err -> err = TypeError /\ existsb throwing rows = true.
Proof.
  rewrite toTokens_spec. destruct (existsb throwing rows); [|discriminate].
  intros H. injection H as <-. now split.
Qed.

Lemma toTokens_quiet (rows : list ITokenRow) (tks : list IApiToken) :
  toTokens rows = inr tks -> existsb throwing rows = false.
Proof.
  rewrite toTokens_spec. destruct (existsb throwing rows); [discriminate | reflexivity].
Qed.

(** The tokens returned are those of the rows of other than inherited names. *)
Lemma toTokens_In (rows : list ITokenRow) (tks : list IApiToken) (tk : IApiToken) :
  toTokens rows = inr tks ->
  (In tk tks <-> In tk (tokensOf (ordinaryRows rows))).
Proof.
  rewrite toTokens_spec. destruct (existsb throwing rows); [discriminate|].
  intros H. injection H as <-. unfold tokensOf. apply values_In.
Qed.

Lemma toTokens_Permutation (rows : list ITokenRow) (tks : list IApiToken) :
  toTokens rows = inr tks -> Permutation tks (tokensOf (ordinaryRows rows)).
Proof.
  rewrite toTokens_spec. destruct (existsb throwing rows); [discriminate|].
  intros H. injection H as <-. unfold tokensOf. apply values_Permutation.
Qed.

Lemma rowsOf_ordinary (s : string) (rows : list ITokenRow) :
  rowsOf s (ordinaryRows rows) = if inherited s then [] else rowsOf s rows.
Proof.
  unfold rowsOf, ordinaryRows. rewrite filter_filter_and.
  destruct (inherited s) eqn:Hs.
  - apply filter_none. intros r _.
    destruct (String.eqb (Row.secret r) s) eqn:E; [|apply andb_false_r].
    apply String.eqb_eq in E. rewrite E, Hs. reflexivity.
  - apply filter_ext. intros r.
    destruct (String.eqb (Row.secret r) s) eqn:E; [|apply andb_false_r].
    apply String.eqb_eq in E. rewrite E, Hs. reflexivity.
Qed.

Lemma tokensOf_ordinary_secret (rows : list ITokenRow) (tk : IApiToken) :
  In tk (tokensOf (ordinaryRows rows)) -> inherited (Token.secret tk) = false.
Proof.
  intros H. apply tokensOf_first_row in H. destruct H as (r0 & Hr0 & _).
  rewrite rowsOf_ordinary in Hr0.
  destruct (inherited (Token.secret tk)); [contradiction | reflexivity].
Qed.

(** A returned token, field by field, in terms of the rows handed in. *)
Lemma toTokens_fields (rows : list ITokenRow) (tks : list IApiToken) (tk : IApiToken) :
  toTokens rows = inr tks -> In tk tks ->
  inherited (Token.secret tk) = false /\
  exists r0 rs,
    rowsOf (Token.secret tk) rows = r0 :: rs /\
    scalars tk = scalars (seed r0) /\
    Token.projects tk =
      fold_left pushScope (map Row.project (rowsOf (Token.secret tk) rows)) [ALL] /\
    Token.environments tk =
      fold_left pushScope (map Row.environment (rowsOf (Token.secret tk) rows)) [ALL] /\
    joined tk.
Proof.
  intros Hret Hin. apply (@toTokens_In rows tks tk Hret) in Hin.
  pose proof (tokensOf_ordinary_secret _ _ Hin) as Hs. split; [exact Hs|].
  apply tokensOf_tokenOf in Hin. apply tokenOf_fields in Hin.
  rewrite rowsOf_ordinary, Hs in Hin. exact Hin.
Qed.

(** Every secret other than an inherited name that has a row gets a token. *)
Lemma toTokens_token (rows : list ITokenRow) (tks : list IApiToken) (s : string) :
  toTokens rows = inr tks ->
  inherited s = false -> rowsOf s rows <> [] ->
  exists tk, In tk tks /\ Token.secret tk = s.
Proof.
  intros Hret Hs Hne.
  destruct (tokenOf s (ordinaryRows rows)) as [tk|] eqn:E.
  - exists tk. split.
    + apply (@toTokens_In rows tks tk Hret). now apply tokenOf_In with s.
    + now apply tokenOf_secret in E.
  - exfalso. rewrite tokenOf_spec, rowsOf_ordinary, Hs in E.
    destruct (rowsOf s rows); [now apply Hne | discriminate].
Qed.

(** No two returned tokens have the same secret. *)
Lemma toTokens_NoDup (rows : list ITokenRow) (tks : list IApiToken) :
  toTokens rows = inr tks -> NoDup (map Token.secret tks).
Proof.
  intros Hret. apply toTokens_Permutation in Hret.
  apply (Permutation_NoDup (Permutation_sym (Permutation_map Token.secret Hret))).
  rewrite tokensOf_secrets. apply firstSeen_NoDup_out.
Qed.

(** The secrets of the returned tokens. *)
Lemma toTokens_secret_iff (rows : list ITokenRow) (tks : list IApiToken) (s : string) :
  toTokens rows = inr tks ->
  (In s (map Token.secret tks) <->
   inherited s = false /\ In s (map Row.secret rows)).
Proof.
  intros Hret. split.
  - intros H. apply in_map_iff in H. destruct H as (tk & <- & Hin).
    destruct (@toTokens_fields rows tks tk Hret Hin) as (Hs & r0 & rs & Hr & _).
    split; [exact Hs|].
    assert (H0 : In r0 (rowsOf (Token.secret tk) rows)) by (rewrite Hr; now left).
    apply filter_In in H0. destruct H0 as [H0 E]. apply String.eqb_eq in E.
    rewrite <- E. now apply in_map.
  - intros [Hs Hin]. apply in_map_iff in Hin. destruct Hin as (r & <- & Hr).
    destruct (@toTokens_token rows tks (Row.secret r) Hret Hs) as (tk & Htk & <-).
    + intros Hnil.
      assert (H0 : In r (rowsOf (Row.secret r) rows))
        by (apply filter_In; split; [exact Hr | apply String.eqb_refl]).
      rewrite Hnil in H0. contradiction.
    + now apply in_map.
Qed.

(** * The aggregation *)

(** ** Projects of a token with project links *)

(** C1, as the code has it: on a row sequence none of whose rows makes the
    fold throw, for a secret whose rows carry at least one non-empty project,
    none of them the wildcard itself, the aggregation returns a token of the
    secret whose projects are the projects of those rows in row order, one
    entry per row, with the joined string following.  The list is free of
    the wildcard; with repeats removed it is the list of distinct projects in
    order of first appearance, and it is that list itself when no project is
    carried by two rows. *)
Theorem projects_distinct_in_order (rows : list ITokenRow) (s : string) :
  existsb throwing rows = false ->
  projectsOf s rows <> [] ->
  ~ In ALL (projectsOf s rows) ->
  exists tks tk,
    toTokens rows = inr tks /\
    In tk tks /\
    Token.secret tk = s /\
    Token.projects tk = projectsOf s rows /\
    Token.project tk = join "," (projectsOf s rows) /\
    ~ In ALL (Token.projects tk) /\
    firstSeen (Token.projects tk) = firstSeen (projectsOf s rows) /\
    (NoDup (projectsOf s rows) ->
     Token.projects tk = firstSeen (projectsOf s rows)).
Proof.
  intros Hq Hne Hw.
  assert (Hs : inherited s = false).
  { destruct (projectsOf s rows) as [|p ps] eqn:E; [contradiction|].
    assert (Hp : In p (projectsOf s rows)) by (rewrite E; now left).
    assert (Ht : truthy (Some p) = true).
    { unfold truthy. apply negb_true_iff, String.eqb_neq. intros ->.
      now apply (@carried_nonempty (map Row.project (rowsOf s rows))). }
    apply projectsOf_In in Hp. destruct Hp as (r & Hr & Hsec & Hpr).
    destruct (inherited s) eqn:Ei; [|reflexivity].
    assert (Hx : existsb throwing rows = true).
    { apply existsb_exists. exists r. split; [exact Hr|].
      unfold throwing. now rewrite Hsec, Ei, Hpr, Ht. }
    congruence. }
  destruct (toTokens_returns rows Hq) as [tks Hret]. exists tks.
  destruct (@toTokens_token rows tks s Hret Hs) as (tk & Hin & Hsec).
  { intros Hnil. apply Hne. unfold projectsOf. now rewrite Hnil. }
  exists tk. split; [exact Hret|]. split; [exact Hin|]. split; [exact Hsec|].
  destruct (@toTokens_fields rows tks tk Hret Hin)
    as (_ & r0 & rs & _ & _ & Hp & _ & Hj & _).
  rewrite Hsec in Hp.
  assert (Hps : Token.projects tk = projectsOf s rows).
  { rewrite Hp, fold_pushScope_seed by exact Hw.
    fold (projectsOf s rows). destruct (projectsOf s rows); congruence. }
  split; [exact Hps|].
  split; [now rewrite Hj, Hps|].
  split; [now rewrite Hps|].
  split; [now rewrite Hps|].
  intros Hnd. now rewrite firstSeen_NoDup.
Qed.

Lemma projects_distinct_in_order_witness :
  exists tks tk,
    toTokens rowsRepeated = inr tks /\
    In tk tks /\
    Token.secret tk = "s1" /\
    Token.projects tk = projectsOf "s1" rowsRepeated /\
    Token.project tk = join "," (projectsOf "s1" rowsRepeated) /\
    ~ In ALL (Token.projects tk) /\
    firstSeen (Token.projects tk) = firstSeen (projectsOf "s1" rowsRepeated) /\
    (NoDup (projectsOf "s1" rowsRepeated) ->
     Token.projects tk = firstSeen (projectsOf "s1" rowsRepeated)).
Proof.
  apply (projects_distinct_in_order rowsRepeated "s1").
  - reflexivity.
  - vm_compute. discriminate.
  - vm_compute. intros [H|[H|[]]]; discriminate.
Defined.

(** C1 fails as stated: a project carried by two rows of the secret is
    listed twice, a row that carries the wildcard as its project puts it in
    the list, a row whose project is the empty string leaves the wildcard
    default in place, and a row of an inherited name with a project makes
    the aggregation throw. *)
Lemma projects_distinct_counterexample :
  toTokens rowsRepeated = inr [tokenS1 "p1,p1" ["p1"; "p1"] "e1,e2" ["e1"; "e2"]] /\
  firstSeen (projectsOf "s1" rowsRepeated) = ["p1"] /\
  toTokens rowsWildcardLast = inr [tokenS1 "p1,*" ["p1"; "*"] "*" ["*"]] /\
  map Row.project rowsEmptyProject = [Some ""] /\
  toTokens rowsEmptyProject = inr [tokenS1 "*" ["*"] "*" ["*"]] /\
  toTokens rowsConstructor = inl TypeError.
Proof. repeat split. Qed.

(** ** The wildcard and concrete entries *)




(** ** Scalar fields *)

(** C10: the scalar fields of an aggregated token are those of the first row
    met for its secret, and a further row of a secret already in the
    accumulator leaves the scalar fields of its token, every other entry and
    the order of the entries as they were. *)
Theorem scalars_from_first_row :
  (forall rows tks tk, toTokens rows = inr tks -> In tk tks ->
     exists r0,
       find (fun r => String.eqb (Row.secret r) (Token.secret tk)) rows = Some r0 /\
       Token.secret tk = Row.secret r0 /\
       Token.username tk = Row.username r0 /\
       Token.type tk = Row.type r0 /\
       Token.expiresAt tk = Row.expires_at r0 /\
       Token.createdAt tk = Row.created_at r0) /\
  (forall acc r tk, lookup (Row.secret r) acc = Own tk ->
     exists acc' tk',
       tokenRowReducer acc r = inr acc' /\
       lookup (Row.secret r) acc' = Own tk' /\
       Token.secret tk' = Token.secret tk /\
       Token.username tk' = Token.username tk /\
       Token.type tk' = Token.type tk /\
       Token.expiresAt tk' = Token.expiresAt tk /\
       Token.createdAt tk' = Token.createdAt tk /\
       map fst acc' = map fst acc /\
       (forall k, k <> Row.secret r -> lookup k acc' = lookup k acc)).
Proof.
  split.
  - intros rows tks tk Hret Hin.
    destruct (@toTokens_fields rows tks tk Hret Hin) as (_ & r0 & rs & Hrows & Hsc & _).
    exists r0. rewrite find_rowsOf, Hrows.
    unfold scalars in Hsc. simpl in Hsc.
    injection Hsc as H1 H2 H3 H4 H5. now repeat split.
  - intros acc r tk Hl.
    assert (Hown : own (Row.secret r) acc = Some tk).
    { unfold lookup in Hl. destruct (own (Row.secret r) acc) as [v|].
      - now injection Hl as ->.
      - destruct (inherited (Row.secret r)); discriminate. }
    assert (Hstep : tokenRowReducer acc r = inr (reduceOwn acc r)).
    { unfold tokenRowReducer, reduceOwn, lookup. rewrite Hown. cbv zeta iota.
      rewrite Hown. reflexivity. }
    exists (reduceOwn acc r), (absorb tk r).
    split; [exact Hstep|].
    assert (Hnew : own (Row.secret r) (reduceOwn acc r) = Some (absorb tk r))
      by (rewrite own_reducer_same, Hown; reflexivity).
    split; [unfold lookup; now rewrite Hnew|].
    pose proof (scalars_absorb tk r) as Hsc. unfold scalars in Hsc.
    injection Hsc as H1 H2 H3 H4 H5.
    repeat split; try assumption.
    + now rewrite keys_reducer, Hown.
    + intros k Hk. unfold lookup. now rewrite own_reducer_other.
Qed.

Lemma scalars_from_first_row_witness :
  (exists r0,
     find (fun r => String.eqb (Row.secret r) "s1") rowsRepeated = Some r0 /\
     "s1" = Row.secret r0 /\
     "user" = Row.username r0 /\
     "client" = Row.type r0 /\
     None = Row.expires_at r0 /\
     0%Z = Row.created_at r0) /\
  (exists acc' tk',
     tokenRowReducer [("s1", tokenS1 "p1" ["p1"] "*" ["*"])]
                     (Row.mk "s1" "other" "admin" (Some 7%Z) 9%Z None
                             (Some "p2") (Some "e1")) = inr acc' /\
     lookup "s1" acc' = Own tk' /\
     Token.secret tk' = "s1" /\
     Token.username tk' = "user" /\
     Token.type tk' = "client" /\
     Token.expiresAt tk' = None /\
     Token.createdAt tk' = 0%Z /\
     map fst acc' = ["s1"] /\
     (forall k, k <> "s1" ->
        lookup k acc' = lookup k [("s1", tokenS1 "p1" ["p1"] "*" ["*"])])).
Proof.
  destruct scalars_from_first_row as [H1 H2].
  split.
  - apply (H1 rowsRepeated [tokenS1 "p1,p1" ["p1"; "p1"] "e1,e2" ["e1"; "e2"]]
              (tokenS1 "p1,p1" ["p1"; "p1"] "e1,e2" ["e1"; "e2"])).
    + reflexivity.
    + left. reflexivity.
  - apply (H2 [("s1", tokenS1 "p1" ["p1"] "*" ["*"])]
              (Row.mk "s1" "other" "admin" (Some 7%Z) 9%Z None (Some "p2") (Some "e1"))
              (tokenS1 "p1" ["p1"] "*" ["*"])).
    reflexivity.
Defined.

(** ** Members of the lists *)

Lemma dropLeading_members (l : list string) (x : string) :
  x <> ALL -> (In x (dropLeading l) <-> In x l).
Proof.
  intros Hx. induction l as [|y l IH]; simpl; [tauto|].
  destruct (String.eqb y ALL) eqn:E.
  - apply String.eqb_eq in E. subst y. rewrite IH.
    split; [now right | intros [H|H]; [now subst x | assumption]].
  - reflexivity.
Qed.

Lemma scope_members (vals : list (option string)) (x : string) :
  x <> ALL ->
  (In x (fold_left pushScope vals [ALL]) <-> In x (carried vals)).
Proof.
  intros Hx. rewrite fold_pushScope_general.
  rewrite <- (dropLeading_members (carried vals) Hx).
  destruct (dropLeading (carried vals)) as [|y l]; simpl; [|tauto].
  split; [intros [H|[]]; now subst x | tauto].
Qed.

Lemma scope_same_members (vals vals' : list (option string)) :
  Permutation vals vals' ->
  ~ In ALL (carried vals) ->
  forall x, In x (fold_left pushScope vals [ALL]) <->
            In x (fold_left pushScope vals' [ALL]).
Proof.
  intros Hperm Hw x.
  pose proof (Permutation_carried Hperm) as Hc.
  assert (Hw' : ~ In ALL (carried vals')).
  { intros H. apply Hw. apply Permutation_in with (carried vals');
      [now apply Permutation_sym | assumption]. }
  rewrite !fold_pushScope_seed by assumption.
  destruct (carried vals) as [|v l] eqn:E.
  - apply Permutation_nil in Hc. rewrite Hc. tauto.
  - destruct (carried vals') as [|v' l'] eqn:E'.
    + apply Permutation_sym, Permutation_nil in Hc. discriminate.
    + split; apply Permutation_in; [assumption | now apply Permutation_sym].
Qed.

Lemma existsb_Permutation {A : Type} (f : A -> bool) (l l' : list A) :
  Permutation l l' -> existsb f l = existsb f l'.
Proof.
  induction 1 as [|x l l' H IH|x y l|l l' l'' H1 IH1 H2 IH2]; simpl.
  - reflexivity.
  - now rewrite IH.
  - destruct (f x), (f y); reflexivity.
  - congruence.
Qed.

(** ** The order of the output *)

Lemma insertIndexed_keys (n : N) (kv : string * IApiToken) (l : Acc) :
  map fst (insertIndexed n kv l) = insertIndex n (fst kv) (map fst l).
Proof.
  induction l as [|kv' l IH]; simpl; [reflexivity|].
  destruct (arrayIndex (fst kv')) as [m|]; [|reflexivity].
  destruct (n <=? m)%N; [reflexivity|]. simpl. now rewrite IH.
Qed.

Lemma indexed_keys (acc : Acc) : map fst (indexed acc) = indexedKeys (map fst acc).
Proof.
  induction acc as [|kv acc IH]; simpl; [reflexivity|].
  destruct (arrayIndex (fst kv)) as [n|]; [|exact IH].
  now rewrite insertIndexed_keys, IH.
Qed.

Lemma named_keys (acc : Acc) :
  map fst (named acc) =
  filter (fun k => match arrayIndex k with Some _ => false | None => true end)
         (map fst acc).
Proof.
  unfold named. induction acc as [|kv acc IH]; simpl; [reflexivity|].
  destruct (arrayIndex (fst kv)); simpl; now rewrite IH.
Qed.

Lemma values_secrets (acc : Acc) :
  keyed acc -> map Token.secret (values acc) = enumeration (map fst acc).
Proof.
  intros [_ Hk]. unfold values, enumeration.
  rewrite <- indexed_keys, <- named_keys, <- map_app.
  assert (H : Forall (fun kv => Token.secret (snd kv) = fst kv)
                     (indexed acc ++ named acc)).
  { eapply Permutation_Forall; [|exact Hk].
    apply Permutation_sym, enumeration_Permutation. }
  induction (indexed acc ++ named acc) as [|kv l IH]; simpl; [reflexivity|].
  inversion H; subst. f_equal; [assumption | now apply IH].
Qed.

Lemma filter_shadowed (p : string -> bool) (x : string) (l : list string) :
  p x = false ->
  filter p (filter (fun y => negb (String.eqb y x)) l) = filter p l.
Proof.
  intros Hx. induction l as [|y l IH]; simpl; [reflexivity|].
  destruct (String.eqb y x) eqn:E; simpl.
  - apply String.eqb_eq in E. subst y. now rewrite Hx.
  - now rewrite IH.
Qed.

Lemma firstSeen_filter (p : string -> bool) (l : list string) :
  firstSeen (filter p l) = filter p (firstSeen l).
Proof.
  induction l as [|x l IH]; simpl; [reflexivity|].
  destruct (p x) eqn:E; simpl.
  - rewrite ?E, IH. f_equal.
    rewrite !filter_filter_and. apply filter_ext. intros y. apply andb_comm.
  - rewrite ?E, IH. now rewrite filter_shadowed.
Qed.

Lemma ordinaryRows_secrets (rows : list ITokenRow) :
  map Row.secret (ordinaryRows rows) =
  filter (fun s => negb (inherited s)) (map Row.secret rows).
Proof.
  unfold ordinaryRows. induction rows as [|r rows IH]; simpl; [reflexivity|].
  destruct (inherited (Row.secret r)); simpl; now rewrite IH.
Qed.

Lemma toTokens_order (rows : list ITokenRow) (tks : list IApiToken) :
  toTokens rows = inr tks ->
  map Token.secret tks =
  enumeration (filter (fun s => negb (inherited s)) (firstSeen (map Row.secret rows))).
Proof.
  intros Hret. rewrite toTokens_spec in Hret.
  destruct (existsb throwing rows); [discriminate|].
  injection Hret as <-.
  rewrite values_secrets by (apply keyed_fold, keyed_nil).
  rewrite keys_fold. simpl.
  rewrite filter_all by reflexivity.
  now rewrite ordinaryRows_secrets, firstSeen_filter.
Qed.

(** ** Tokens without associations *)




(** ** Reordering the rows *)

(** C9, as the code has it: when the aggregation returns on a row sequence
    it returns on every permutation of it, with tokens for the same secrets.
    The projects of a token have the same members in both apart from the
    wildcard itself, and the same members outright provided no row of its
    secret carries the wildcard as its project; likewise the environments.
    The order of the output is determined by the order in which the secrets
    are first met. *)
Theorem members_up_to_order (rows rows' : list ITokenRow) (tks : list IApiToken) :
  Permutation rows rows' ->
  toTokens rows = inr tks ->
  exists tks',
    toTokens rows' = inr tks' /\
    (forall s, In s (map Token.secret tks) <-> In s (map Token.secret tks')) /\
    (forall tk tk', In tk tks -> In tk' tks' ->
       Token.secret tk = Token.secret tk' ->
       (forall p, p <> ALL ->
          (In p (Token.projects tk) <-> In p (Token.projects tk'))) /\
       (forall e, e <> ALL ->
          (In e (Token.environments tk) <-> In e (Token.environments tk'))) /\
       (~ In ALL (projectsOf (Token.secret tk) rows) ->
        forall p, In p (Token.projects tk) <-> In p (Token.projects tk')) /\
       (~ In ALL (environmentsOf (Token.secret tk) rows) ->
        forall e, In e (Token.environments tk) <-> In e (Token.environments tk'))) /\
    (firstSeen (map Row.secret rows) = firstSeen (map Row.secret rows') ->
     map Token.secret tks = map Token.secret tks').
Proof.
  intros Hperm Hret.
  assert (Hq : existsb throwing rows' = false).
  { rewrite <- (existsb_Permutation throwing Hperm).
    now apply (@toTokens_quiet rows tks). }
  destruct (toTokens_returns rows' Hq) as [tks' Hret']. exists tks'.
  split; [exact Hret'|]. split; [|split].
  - intros s.
    rewrite (@toTokens_secret_iff rows tks s Hret),
            (@toTokens_secret_iff rows' tks' s Hret').
    split; intros [Hi Hs]; (split; [exact Hi|]).
    + apply Permutation_in with (map Row.secret rows);
        [now apply Permutation_map | exact Hs].
    + apply Permutation_in with (map Row.secret rows');
        [now apply Permutation_map, Permutation_sym | exact Hs].
  - intros tk tk' Hin Hin' Hs.
    destruct (@toTokens_fields rows tks tk Hret Hin)
      as (_ & r0 & rs & _ & _ & Hp & He & _).
    destruct (@toTokens_fields rows' tks' tk' Hret' Hin')
      as (_ & r0' & rs' & _ & _ & Hp' & He' & _).
    rewrite <- Hs in Hp', He'.
    pose proof (Permutation_rowsOf (Token.secret tk) Hperm) as Hrows.
    split; [|split; [|split]].
    + intros p Hne. rewrite Hp, Hp', !scope_members by exact Hne.
      split; apply Permutation_in;
        [|apply Permutation_sym]; now apply Permutation_carried, Permutation_map.
    + intros e Hne. rewrite He, He', !scope_members by exact Hne.
      split; apply Permutation_in;
        [|apply Permutation_sym]; now apply Permutation_carried, Permutation_map.
    + intros Hw p. rewrite Hp, Hp'.
      apply scope_same_members; [|exact Hw]. now apply Permutation_map.
    + intros Hw e. rewrite He, He'.
      apply scope_same_members; [|exact Hw]. now apply Permutation_map.
  - intros Hord.
    rewrite (toTokens_order rows Hret), (toTokens_order rows' Hret').
    now rewrite Hord.
Qed.

Lemma members_up_to_order_witness :
  exists tks',
    toTokens [row "s1" (Some "p2") None; row "s1" (Some "p1") None] = inr tks' /\
    (forall s, In s ["s1"] <-> In s (map Token.secret tks')) /\
    (forall tk', In tk' tks' -> Token.secret tk' = "s1" ->
       (forall p, In p ["p1"; "p2"] <-> In p (Token.projects tk')) /\
       (forall e, e <> ALL -> (In e ["*"] <-> In e (Token.environments tk')))) /\
    ["s1"] = map Token.secret tks'.
Proof.
  destruct (@members_up_to_order
              rowsTwoProjects
              [row "s1" (Some "p2") None; row "s1" (Some "p1") None]
              [tokenS1 "p1,p2" ["p1"; "p2"] "*" ["*"]])
    as (tks' & Hret' & Hsec & Hmem & Hord).
  - apply perm_swap.
  - reflexivity.
  - exists tks'. split; [exact Hret'|]. split; [exact Hsec|]. split.
    + intros tk' Hin' Hs.
      destruct (Hmem (tokenS1 "p1,p2" ["p1"; "p2"] "*" ["*"]) tk')
        as (_ & He & Hp & _).
      * left. reflexivity.
      * exact Hin'.
      * now rewrite Hs.
      * split; [|exact He].
        apply Hp. vm_compute. intros [H|[H|[]]]; discriminate.
    + apply Hord. reflexivity.
Defined.

(** C9 fails as stated: with a row that carries the wildcard as its project,
    the members of the token's projects depend on the order of the rows. *)
Lemma members_order_counterexample :
  Permutation rowsWildcardLast rowsWildcardFirst /\
  toTokens rowsWildcardLast = inr [tokenS1 "p1,*" ["p1"; "*"] "*" ["*"]] /\
  toTokens rowsWildcardFirst = inr [tokenS1 "p1" ["p1"] "*" ["*"]] /\
  In ALL (Token.projects (tokenS1 "p1,*" ["p1"; "*"] "*" ["*"])) /\
  ~ In ALL (Token.projects (tokenS1 "p1" ["p1"] "*" ["*"])).
Proof.
  split; [apply perm_swap|]. split; [reflexivity|]. split; [reflexivity|].
  split; [right; left; reflexivity|].
  intros [H|[]]. discriminate.
Qed.

(** ** The lists of a token *)

(** X1: on every row sequence on which the aggregation returns, the projects
    of a token are the non-empty projects carried by the rows of its secret,
    in row order and one per row, without the wildcards that come before the
    first other value, or the wildcard alone when nothing is left; its
    environments are built from the environment column in the same way. *)
Theorem lists_of_token (rows : list ITokenRow) (tks : list IApiToken)
        (tk : IApiToken) :
  toTokens rows = inr tks ->
  In tk tks ->
  Token.projects tk = readBack (dropLeading (projectsOf (Token.secret tk) rows)) /\
  Token.environments tk =
    readBack (dropLeading (environmentsOf (Token.secret tk) rows)).
Proof.
  intros Hret Hin.
  destruct (@toTokens_fields rows tks tk Hret Hin)
    as (_ & r0 & rs & _ & _ & Hp & He & _).
  split.
  - rewrite Hp. apply fold_pushScope_general.
  - rewrite He. apply fold_pushScope_general.
Qed.

Lemma lists_of_token_witness :
  Token.projects (tokenS1 "p1" ["p1"] "e1,e1" ["e1"; "e1"]) =
    readBack (dropLeading (projectsOf "s1" rowsS1)) /\
  Token.environments (tokenS1 "p1" ["p1"] "e1,e1" ["e1"; "e1"]) =
    readBack (dropLeading (environmentsOf "s1" rowsS1)).
Proof.
  apply (@lists_of_token rowsS1 [tokenS1 "p1" ["p1"] "e1,e1" ["e1"; "e1"]]
                         (tokenS1 "p1" ["p1"] "e1,e1" ["e1"; "e1"])).
  - reflexivity.
  - left. reflexivity.
Defined.

(** X2: every token the aggregation returns has non-empty projects and
    environments lists without an empty-string entry, and its joined strings
    are the lists joined with commas. *)
Theorem token_well_formed (rows : list ITokenRow) (tks : list IApiToken)
        (tk : IApiToken) :
  toTokens rows = inr tks ->
  In tk tks ->
  Token.projects tk <> [] /\
  Token.environments tk <> [] /\
  ~ In "" (Token.projects tk) /\
  ~ In "" (Token.environments tk) /\
  Token.project tk = join "," (Token.projects tk) /\
  Token.environment tk = join "," (Token.environments tk).
Proof.
  intros Hret Hin.
  destruct (@toTokens_fields rows tks tk Hret Hin)
    as (_ & r0 & rs & _ & _ & Hp & He & Hjp & Hje).
  rewrite fold_pushScope_general in Hp, He.
  split; [rewrite Hp; apply readBack_nonempty|].
  split; [rewrite He; apply readBack_nonempty|].
  split; [|split; [|split; assumption]].
  - rewrite Hp. intros H. apply readBack_In in H. destruct H as [H|H].
    + discriminate.
    + apply dropLeading_In in H. now apply carried_nonempty in H.
  - rewrite He. intros H. apply readBack_In in H. destruct H as [H|H].
    + discriminate.
    + apply dropLeading_In in H. now apply carried_nonempty in H.
Qed.

Lemma token_well_formed_witness :
  Token.projects (tokenS1 "*" ["*"] "*" ["*"]) <> [] /\
  Token.environments (tokenS1 "*" ["*"] "*" ["*"]) <> [] /\
  ~ In "" (Token.projects (tokenS1 "*" ["*"] "*" ["*"])) /\
  ~ In "" (Token.environments (tokenS1 "*" ["*"] "*" ["*"])) /\
  Token.project (tokenS1 "*" ["*"] "*" ["*"]) =
    join "," (Token.projects (tokenS1 "*" ["*"] "*" ["*"])) /\
  Token.environment (tokenS1 "*" ["*"] "*" ["*"]) =
    join "," (Token.environments (tokenS1 "*" ["*"] "*" ["*"])).
Proof.
  apply (@token_well_formed rowsEmptyProject [tokenS1 "*" ["*"] "*" ["*"]]
                            (tokenS1 "*" ["*"] "*" ["*"])).
  - reflexivity.
  - left. reflexivity.
Defined.

(** * The store *)

(** ** The join *)

Lemma query_rowsFor (db : Db) :
  makeTokenProjectQuery db = flat_map (rowsFor db) (api_tokens db).
Proof. reflexivity. Qed.

Lemma rowsFor_In (db : Db) (t : ITokenInsert) (r : ITokenRow) :
  In r (rowsFor db t) ->
  Row.secret r = Stored.secret t /\
  Row.username r = Stored.username t /\
  Row.type r = Stored.type t /\
  Row.expires_at r = Stored.expires_at t /\
  Row.created_at r = Stored.created_at t.
Proof.
  unfold rowsFor. intros H. apply in_flat_map in H.
  destruct H as [p [_ H]]. apply in_map_iff in H.
  destruct H as [e [<- _]]. now repeat split.
Qed.

Lemma leftJoin_nonempty (s : string) (links : list (string * string)) :
  leftJoin s links <> [].
Proof.
  unfold leftJoin.
  destruct (filter (fun l => String.eqb (fst l) s) links); discriminate.
Qed.

Lemma rowsFor_nonempty (db : Db) (t : ITokenInsert) : rowsFor db t <> [].
Proof.
  unfold rowsFor.
  destruct (leftJoin (Stored.secret t) (api_token_project db)) as [|p ps] eqn:Ep;
    [now apply leftJoin_nonempty in Ep|].
  destruct (leftJoin (Stored.secret t) (api_token_environment db)) as [|e es] eqn:Ee;
    [now apply leftJoin_nonempty in Ee|].
  simpl. discriminate.
Qed.

Lemma rowsFor_row (db : Db) (t : ITokenInsert) :
  exists r, In r (rowsFor db t).
Proof.
  pose proof (rowsFor_nonempty db t) as H.
  destruct (rowsFor db t) as [|r rs]; [contradiction|].
  exists r. now left.
Qed.

Lemma query_In (db : Db) (r : ITokenRow) :
  In r (makeTokenProjectQuery db) <->
  exists t, In t (api_tokens db) /\ In r (rowsFor db t).
Proof. rewrite query_rowsFor. apply in_flat_map. Qed.

Lemma exists_spec (s : string) (db : Db) :
  exists_ s db = true <->
  exists t, In t (api_tokens db) /\ Stored.secret t = s.
Proof.
  unfold exists_. rewrite existsb_exists.
  split; intros (t & Ht & Hs); exists t; (split; [exact Ht|]);
    now apply String.eqb_eq.
Qed.

Lemma query_secrets (db : Db) (s : string) :
  In s (map Row.secret (makeTokenProjectQuery db)) <-> exists_ s db = true.
Proof.
  rewrite exists_spec, in_map_iff. split.
  - intros (r & Hs & Hr). apply query_In in Hr. destruct Hr as (t & Ht & Hr).
    apply rowsFor_In in Hr. destruct Hr as (Hs' & _).
    exists t. split; [exact Ht | congruence].
  - intros (t & Ht & Hs). destruct (rowsFor_row db t) as [r Hr].
    exists r. split.
    + apply rowsFor_In in Hr. destruct Hr as (Hs' & _). congruence.
    + apply query_In. now exists t.
Qed.

(** ** Active tokens *)


Lemma activeRows_In (now : Date) (db : Db) (r : ITokenRow) :
  In r (activeRows now db) <->
  exists t, In t (api_tokens db) /\ In r (rowsFor db t) /\
            notExpired now (Stored.expires_at t) = true.
Proof.
  unfold activeRows. rewrite filter_In, query_In. split.
  - intros ((t & Ht & Hr) & Ha). exists t. split; [exact Ht|]. split; [exact Hr|].
    pose proof (rowsFor_In _ _ _ Hr) as (_ & _ & _ & He & _). now rewrite <- He.
  - intros (t & Ht & Hr & Ha). split; [now exists t|].
    pose proof (rowsFor_In _ _ _ Hr) as (_ & _ & _ & He & _). now rewrite He.
Qed.

Lemma activeRows_secrets (now : Date) (db : Db) (s : string) :
  In s (map Row.secret (activeRows now db)) <->
  exists t, In t (api_tokens db) /\ Stored.secret t = s /\
            notExpired now (Stored.expires_at t) = true.
Proof.
  rewrite in_map_iff. split.
  - intros (r & Hs & Hr). apply activeRows_In in Hr.
    destruct Hr as (t & Ht & Hr & Ha).
    pose proof (rowsFor_In _ _ _ Hr) as (Hs' & _).
    exists t. split; [exact Ht|]. split; [congruence | exact Ha].
  - intros (t & Ht & Hs & Ha). destruct (rowsFor_row db t) as [r Hr].
    exists r. split.
    + pose proof (rowsFor_In _ _ _ Hr) as (Hs' & _). congruence.
    + apply activeRows_In. now exists t.
Qed.

(** ** What the join carries from the link tables *)

Lemma carried_In_iff (vals : list (option string)) (x : string) :
  In x (carried vals) <-> In (Some x) vals /\ x <> "".
Proof.
  split.
  - intros H. split; [now apply carried_In|].
    intros ->. now apply (carried_nonempty vals).
  - intros [H Hx]. induction vals as [|[v|] vals IH]; simpl.
    + contradiction.
    + destruct H as [H|H].
      * injection H as ->.
        assert (Ht : truthy (Some x) = true)
          by (unfold truthy; now apply negb_true_iff, String.eqb_neq).
        rewrite Ht. now left.
      * destruct (truthy (Some v)); [right|]; now apply IH.
    + destruct H as [H|H]; [discriminate | now apply IH].
Qed.

Lemma leftJoin_Some (s : string) (links : list (string * string)) (p : string) :
  In (Some p) (leftJoin s links) <-> In (s, p) links.
Proof.
  unfold leftJoin.
  assert (Hf : In (s, p) links <->
               In (s, p) (filter (fun l => String.eqb (fst l) s) links)).
  { rewrite filter_In. simpl. rewrite String.eqb_refl. tauto. }
  rewrite Hf.
  destruct (filter (fun l => String.eqb (fst l) s) links) as [|l ls] eqn:E.
  - simpl. split; [intros [H|[]]; discriminate | contradiction].
  - assert (Hs : forall kv, In kv (l :: ls) -> fst kv = s).
    { intros kv Hkv. rewrite <- E in Hkv. apply filter_In in Hkv.
      now apply String.eqb_eq. }
    rewrite in_map_iff. split.
    + intros ([k v] & Hv & Hin). injection Hv as <-.
      pose proof (Hs _ Hin) as Hk. simpl in Hk. now subst k.
    + intros Hin. now exists (s, p).
Qed.

Lemma rowsFor_project (db : Db) (t : ITokenInsert) (p : string) :
  (exists r, In r (rowsFor db t) /\ Row.project r = Some p) <->
  In (Stored.secret t, p) (api_token_project db).
Proof.
  rewrite <- leftJoin_Some. unfold rowsFor. split.
  - intros (r & Hr & Hp). apply in_flat_map in Hr.
    destruct Hr as (pr & Hpr & Hr). apply in_map_iff in Hr.
    destruct Hr as (e & <- & _). simpl in Hp. now subst pr.
  - intros Hin.
    destruct (leftJoin (Stored.secret t) (api_token_environment db)) as [|e es] eqn:E;
      [now apply leftJoin_nonempty in E|].
    eexists. split.
    + apply in_flat_map. exists (Some p). split; [exact Hin|].
      left. reflexivity.
    + reflexivity.
Qed.

Lemma rowsFor_environment (db : Db) (t : ITokenInsert) (e : string) :
  (exists r, In r (rowsFor db t) /\ Row.environment r = Some e) <->
  In (Stored.secret t, e) (api_token_environment db).
Proof.
  rewrite <- leftJoin_Some. unfold rowsFor. split.
  - intros (r & Hr & He). apply in_flat_map in Hr.
    destruct Hr as (pr & Hpr & Hr). apply in_map_iff in Hr.
    destruct Hr as (er & <- & Her). simpl in He. now subst er.
  - intros Hin.
    destruct (leftJoin (Stored.secret t) (api_token_project db)) as [|p ps] eqn:E;
      [now apply leftJoin_nonempty in E|].
    eexists. split.
    + apply in_flat_map. exists p. split; [now left|].
      apply in_map_iff. exists (Some e). split; [reflexivity | exact Hin].
    + reflexivity.
Qed.

(** ** What a read returns, whatever the order of the rows *)

Section Reads.

Variable planner : list ITokenRow -> list ITokenRow.
Hypothesis planner_reorders : reorders planner.

Lemma planner_In (rows : list ITokenRow) (r : ITokenRow) :
  In r (planner rows) <-> In r rows.
Proof.
  split; apply Permutation_in;
    [apply planner_reorders | apply Permutation_sym, planner_reorders].
Qed.

Lemma planner_throwing (rows : list ITokenRow) :
  existsb throwing (planner rows) = existsb throwing rows.
Proof. apply existsb_Permutation, planner_reorders. Qed.

Lemma planner_length (rows : list ITokenRow) :
  List.length (planner rows) = List.length rows.
Proof. apply Permutation_length, planner_reorders. Qed.

Lemma read_returns (rows : list ITokenRow) :
  existsb throwing rows = false -> exists tks, toTokens (planner rows) = inr tks.
Proof. intros H. apply toTokens_returns. now rewrite planner_throwing. Qed.


Lemma read_secret_iff (rows : list ITokenRow) (tks : list IApiToken) (s : string) :
  toTokens (planner rows) = inr tks ->
  (In s (map Token.secret tks) <->
   inherited s = false /\ In s (map Row.secret rows)).
Proof.
  intros H. rewrite (@toTokens_secret_iff _ tks s H).
  rewrite !in_map_iff.
  split; intros [Hi (r & Hs & Hr)]; (split; [exact Hi|]); exists r;
    (split; [exact Hs|]); now apply planner_In.
Qed.

Lemma read_first_row (rows : list ITokenRow) (tks : list IApiToken)
      (tk : IApiToken) :
  toTokens (planner rows) = inr tks -> In tk tks ->
  exists r0,
    In r0 rows /\ Row.secret r0 = Token.secret tk /\
    scalars tk = scalars (seed r0).
Proof.
  intros Hret Hin.
  destruct (@toTokens_fields _ tks tk Hret Hin) as (_ & r0 & rs & Hrows & Hsc & _).
  assert (H0 : In r0 (rowsOf (Token.secret tk) (planner rows)))
    by (rewrite Hrows; now left).
  apply filter_In in H0. destruct H0 as [H0 Hs]. apply String.eqb_eq in Hs.
  exists r0. split; [now apply planner_In|]. now split.
Qed.

(** The members of the two lists of a token aggregated from the join rows
    of some of the stored tokens. *)
Lemma read_links_of (db : Db) (sel : ITokenInsert -> bool)
      (rows : list ITokenRow) (tks : list IApiToken) (tk : IApiToken) :
  (forall r, In r rows <->
             exists t, In t (api_tokens db) /\ sel t = true /\ In r (rowsFor db t)) ->
  toTokens (planner rows) = inr tks ->
  In tk tks ->
  (forall p, p <> ALL ->
     (In p (Token.projects tk) <->
      p <> "" /\ In (Token.secret tk, p) (api_token_project db))) /\
  (forall e, e <> ALL ->
     (In e (Token.environments tk) <->
      e <> "" /\ In (Token.secret tk, e) (api_token_environment db))).
Proof.
  intros Hrows Hret Hin.
  destruct (@toTokens_fields _ tks tk Hret Hin)
    as (_ & r0 & rs & _ & _ & Hp & He & _).
  destruct (@read_first_row rows tks tk Hret Hin) as (r1 & Hr1 & Hs1 & _).
  apply Hrows in Hr1. destruct Hr1 as (t0 & Ht0 & Hsel0 & Hr1).
  assert (Hs0 : Stored.secret t0 = Token.secret tk).
  { apply rowsFor_In in Hr1. destruct Hr1 as (Hs' & _). congruence. }
  assert (Hrow : forall r,
            In r (rowsOf (Token.secret tk) (planner rows)) <->
            exists t, In t (api_tokens db) /\ sel t = true /\
                      Stored.secret t = Token.secret tk /\ In r (rowsFor db t)).
  { intros r. unfold rowsOf. rewrite filter_In, String.eqb_eq.
    rewrite planner_In, Hrows. split.
    - intros ((t & Ht & Hsel & Hr) & Hs). exists t. split; [exact Ht|].
      split; [exact Hsel|]. split; [|exact Hr].
      apply rowsFor_In in Hr. destruct Hr as (Hs' & _). congruence.
    - intros (t & Ht & Hsel & Hs & Hr). split; [now exists t|].
      apply rowsFor_In in Hr. destruct Hr as (Hs' & _). congruence. }
  split.
  - intros p Hne. rewrite Hp, (scope_members _ Hne), carried_In_iff, in_map_iff.
    split.
    + intros [(r & Hpr & Hr) Hx]. split; [exact Hx|].
      apply Hrow in Hr. destruct Hr as (t & _ & _ & Hs & Hr).
      rewrite <- Hs. apply rowsFor_project. now exists r.
    + intros [Hx Hl]. split; [|exact Hx].
      rewrite <- Hs0 in Hl. apply rowsFor_project in Hl.
      destruct Hl as (r & Hr & Hpr). exists r. split; [exact Hpr|].
      apply Hrow. now exists t0.
  - intros e Hne. rewrite He, (scope_members _ Hne), carried_In_iff, in_map_iff.
    split.
    + intros [(r & Her & Hr) Hx]. split; [exact Hx|].
      apply Hrow in Hr. destruct Hr as (t & _ & _ & Hs & Hr).
      rewrite <- Hs. apply rowsFor_environment. now exists r.
    + intros [Hx Hl]. split; [|exact Hx].
      rewrite <- Hs0 in Hl. apply rowsFor_environment in Hl.
      destruct Hl as (r & Hr & Her). exists r. split; [exact Her|].
      apply Hrow. now exists t0.
Qed.

End Reads.

Lemma getAllActive_rows (planner : list ITokenRow -> list ITokenRow)
      (now : Date) (db : Db) :
  getAllActive planner now db = toTokens (planner (activeRows now db)).
Proof. reflexivity. Qed.




Example getAllActive_drops_expired :
  option_map (map Token.secret)
             (match getAll tableOrder dbExpiry with inr tks => Some tks | inl _ => None end)
  = Some ["old"; "live"; "forever"] /\
  option_map (map Token.secret)
             (match getAllActive tableOrder 10%Z dbExpiry with
              | inr tks => Some tks | inl _ => None end)
  = Some ["live"; "forever"] /\
  option_map (map Token.secret)
             (match getAllActive tableOrder 20%Z dbExpiry with
              | inr tks => Some tks | inl _ => None end)
  = Some ["forever"].
Proof. repeat split. Qed.

(** ** Statements and their failures *)

Section Faults.

Variable ALL_PROJECTS : string.
Variable cascade : bool.
Variable fault : Stmt -> Db -> option string.

Lemma exec_error (s : Stmt) (w w' : World) (err : Error) :
  exec cascade fault s w = (inl err, w') ->
  w' = w /\ exists message, err = StorageError message.
Proof.
  unfold exec. destruct (fault s (tables w)) as [m|].
  - intros H. injection H as <- <-. split; [reflexivity | now exists m].
  - destruct (perform cascade s (clock w) (tables w)) as [m|db].
    + intros H. injection H as <- <-. split; [reflexivity | now exists m].
    + discriminate.
Qed.

Lemma exec_ok (s : Stmt) (w w' : World) :
  exec cascade fault s w = (inr tt, w') ->
  fault s (tables w) = None /\
  exists db, perform cascade s (clock w) (tables w) = inr db /\ w' = withTables db w.
Proof.
  unfold exec. destruct (fault s (tables w)) as [m|]; [discriminate|].
  destruct (perform cascade s (clock w) (tables w)) as [m|db]; [discriminate|].
  intros H. injection H as <-. split; [reflexivity | now exists db].
Qed.

Lemma all_exec_error {A : Type} (mk : A -> Stmt) (l : list A) (w w' : World)
      (err : Error) :
  all (map (fun x => exec cascade fault (mk x)) l) w = (inl err, w') ->
  exists message, err = StorageError message.
Proof.
  revert w. induction l as [|x l IH]; intros w; simpl.
  - discriminate.
  - unfold bind. destruct (exec cascade fault (mk x) w) as [[e|[]] w1] eqn:E.
    + intros H. injection H as <- <-. now apply exec_error in E.
    + apply IH.
Qed.

Lemma insertHandler_error (newToken : IApiTokenCreate) (w w' : World) (err : Error) :
  insertHandler ALL_PROJECTS cascade fault newToken w = (inl err, w') ->
  exists message, err = StorageError message.
Proof.
  unfold insertHandler, bind at 1.
  destruct (exec cascade fault (InsertToken (toRow newToken)) w) as [[e|[]] w1] eqn:E1.
  - intros H. injection H as <- <-. now apply exec_error in E1.
  - unfold bind at 1, now. unfold bind at 1.
    match goal with
    | |- context [all ?tasks w1] => destruct (all tasks w1) as [[e|[]] w2] eqn:E2
    end.
    + intros H. injection H as <- <-. now apply all_exec_error in E2.
    + unfold bind at 1.
      match goal with
      | |- context [all ?tasks w2] => destruct (all tasks w2) as [[e|[]] w3] eqn:E3
      end.
      * intros H. injection H as <- <-. now apply all_exec_error in E3.
      * discriminate.
Qed.

(** ** markSeenAt *)

(** C6: whatever the storage does, [markSeenAt] returns normally.  When the
    storage throws, the tables are as they were and the error is in the log,
    and nothing else of the world has changed. *)
Theorem markSeenAt_never_throws (secrets : list string) (w : World) :
  exists w',
    markSeenAt cascade fault secrets w = (inr tt, w') /\
    clock w' = clock w /\
    (logged w' = logged w \/
     exists err,
       tables w' = tables w /\
       logged w' = logged w ++ [("Could not update lastSeen, error: ", err)]) /\
    (forall message,
       fault (UpdateSeenAtWhereIn "secrets" secrets (clock w)) (tables w) =
       Some message ->
       tables w' = tables w /\
       logged w' = logged w ++
         [("Could not update lastSeen, error: ", StorageError message)]).
Proof.
  unfold markSeenAt, bind, now, tryCatch, exec, logError.
  destruct (fault (UpdateSeenAtWhereIn "secrets" secrets (clock w)) (tables w))
    as [m|] eqn:F.
  - eexists. split; [reflexivity|]. simpl. split; [reflexivity|]. split.
    + right. eexists. split; reflexivity.
    + intros message H. injection H as <-. split; reflexivity.
  - destruct (perform cascade (UpdateSeenAtWhereIn "secrets" secrets (clock w))
                      (clock w) (tables w)) as [m|db].
    + eexists. split; [reflexivity|]. simpl. split; [reflexivity|]. split.
      * right. eexists. split; reflexivity.
      * discriminate.
    + eexists. split; [reflexivity|]. simpl. split; [reflexivity|]. split.
      * now left.
      * discriminate.
Qed.

(** X14: the update of [markSeenAt] filters on the column [secrets], which
    [api_tokens] does not have.  Whatever the storage does, the tables are
    left as they were and no [seen_at] is written.  For a non-empty list of
    secrets the statement is refused and one entry goes to the log; for the
    empty list the statement names no column, and nothing is logged unless
    the storage throws of its own. *)
Theorem markSeenAt_leaves_tables (secrets : list string) (w : World) :
  tables (snd (markSeenAt cascade fault secrets w)) = tables w /\
  (secrets <> [] ->
   exists err,
     logged (snd (markSeenAt cascade fault secrets w)) =
     logged w ++ [("Could not update lastSeen, error: ", err)]) /\
  (secrets = [] ->
   fault (UpdateSeenAtWhereIn "secrets" secrets (clock w)) (tables w) = None ->
   logged (snd (markSeenAt cascade fault secrets w)) = logged w).
Proof.
  unfold markSeenAt, bind, now, tryCatch, exec, logError.
  destruct (fault (UpdateSeenAtWhereIn "secrets" secrets (clock w)) (tables w)).
  - simpl. split; [reflexivity|]. split; [|discriminate].
    intros _. eexists. reflexivity.
  - destruct secrets as [|s secrets]; simpl.
    + destruct w as [db c l]. simpl. split; [reflexivity|]. split; [|reflexivity].
      intros H. now contradiction H.
    + split; [reflexivity|]. split; [|discriminate].
      intros _. eexists. reflexivity.
Qed.

(** ** insert and the transaction *)

(** C7, as the code has it: when a statement of [insert] fails, the error is
    the storage's and the tables are left exactly as they were before the
    call, so no token row and no link row written by the call remains;
    [exists_] then answers for the secret what it answered before the call,
    which is false when the secret was not stored before. *)
Theorem insert_rolls_back (newToken : IApiTokenCreate) (w w' : World) (err : Error) :
  insert ALL_PROJECTS cascade fault newToken w = (inl err, w') ->
  tables w' = tables w /\
  (exists message, err = StorageError message) /\
  exists_ (Create.secret newToken) (tables w') =
  exists_ (Create.secret newToken) (tables w) /\
  (exists_ (Create.secret newToken) (tables w) = false ->
   exists_ (Create.secret newToken) (tables w') = false).
Proof.
  unfold insert, transaction.
  destruct (insertHandler ALL_PROJECTS cascade fault newToken w)
    as [[e|created] w1] eqn:E; [|discriminate].
  intros H. injection H as <- <-. simpl.
  split; [reflexivity|].
  split; [now apply insertHandler_error in E|].
  split; [reflexivity | trivial].
Qed.

End Faults.

Lemma markSeenAt_never_throws_witness :
  exists w',
    markSeenAt false throwsOnUpdate ["unknown-secret"] world1 = (inr tt, w') /\
    tables w' = tables world1 /\
    logged w' = [("Could not update lastSeen, error: ", StorageError "connection lost")].
Proof.
  destruct (markSeenAt_never_throws false throwsOnUpdate ["unknown-secret"] world1)
    as (w' & Hrun & _ & _ & Hlog).
  exists w'. split; [exact Hrun|].
  apply (Hlog "connection lost"). reflexivity.
Defined.

Lemma markSeenAt_leaves_tables_witness :
  (exists err,
     logged (snd (markSeenAt false noFault ["s1"] world1)) =
     logged world1 ++ [("Could not update lastSeen, error: ", err)]) /\
  logged (snd (markSeenAt false noFault [] world1)) = logged world1.
Proof.
  split.
  - destruct (markSeenAt_leaves_tables false noFault ["s1"] world1) as (_ & H & _).
    apply H. discriminate.
  - destruct (markSeenAt_leaves_tables false noFault [] world1) as (_ & _ & H).
    apply H; reflexivity.
Defined.

Example markSeenAt_refused :
  markSeenAt false noFault ["s1"] world1 =
  (inr tt, mkWorld (tables world1) 5%Z
             [("Could not update lastSeen, error: ",
               StorageError "column secrets does not exist")]).
Proof. reflexivity. Qed.

Lemma insert_rolls_back_witness :
  tables world0 = tables world0 /\
  (exists message, StorageError "constraint violation" = StorageError message) /\
  exists_ "s1" (tables world0) = exists_ "s1" (tables world0) /\
  (exists_ "s1" (tables world0) = false -> exists_ "s1" (tables world0) = false).
Proof.
  apply (@insert_rolls_back "*" false (rejectProject "p2") requestS1 world0 world0
                            (StorageError "constraint violation")).
  reflexivity.
Defined.

(** Without the transaction around them, the statements of [insert] leave
    the token row and the first link behind when the second link fails. *)
Example handler_alone_leaves_rows :
  exists_ "s1" (tables (snd (insertHandler "*" false (rejectProject "p2") requestS1 world0)))
  = true /\
  api_token_project
    (tables (snd (insertHandler "*" false (rejectProject "p2") requestS1 world0)))
  = [("s1", "p1")] /\
  insert "*" false (rejectProject "p2") requestS1 world0
  = (inl (StorageError "constraint violation"), world0) /\
  exists_ "s1" (tables (snd (insert "*" false (rejectProject "p2") requestS1 world0)))
  = false.
Proof. repeat split. Qed.

(** C7 fails as stated: an insert that fails because its secret is already
    stored leaves that token in place, and [exists_] answers true. *)
Lemma insert_failure_exists_counterexample :
  insert "*" false noFault requestS1 world0 =
    (inr (Created.mk requestS1 "p1,p2" "*" 5%Z), world1) /\
  insert "*" false uniqueSecret requestS1 world1 =
    (inl (StorageError "duplicate key"), world1) /\
  exists_ "s1" (tables world1) = true.
Proof. repeat split. Qed.

(** ** setExpiry *)

Lemma exists_after_update (s secret : string) (e : Date) (db : Db) :
  exists_ s (withExpiry secret e db) = exists_ s db.
Proof.
  unfold exists_, withExpiry. cbn [api_tokens].
  induction (api_tokens db) as [|t tokens IH]; simpl.
  - reflexivity.
  - rewrite IH. destruct (String.eqb (Stored.secret t) secret); reflexivity.
Qed.

Lemma update_no_match (secret : string) (e : Date) (db : Db) :
  exists_ secret db = false -> withExpiry secret e db = db.
Proof.
  destruct db as [tokens plinks elinks]. unfold exists_, withExpiry.
  cbn [api_tokens api_token_project api_token_environment].
  intros H. f_equal.
  induction tokens as [|t tokens IH]; simpl in *; [reflexivity|].
  destruct (String.eqb (Stored.secret t) secret); simpl in *; [discriminate|].
  now rewrite IH.
Qed.

Lemma filter_updated_same (secret : string) (e : Date) (tokens : list ITokenInsert) :
  filter (fun t => String.eqb (Stored.secret t) secret)
         (map (fun r => if String.eqb (Stored.secret r) secret
                        then setExpiresAt (Some e) r else r) tokens) =
  map (setExpiresAt (Some e))
      (filter (fun t => String.eqb (Stored.secret t) secret) tokens).
Proof.
  induction tokens as [|t tokens IH]; simpl; [reflexivity|].
  destruct (String.eqb (Stored.secret t) secret) eqn:E; simpl; rewrite E, IH;
    reflexivity.
Qed.

Lemma filter_updated_other (k secret : string) (e : Date)
      (tokens : list ITokenInsert) :
  k <> secret ->
  filter (fun t => String.eqb (Stored.secret t) k)
         (map (fun r => if String.eqb (Stored.secret r) secret
                        then setExpiresAt (Some e) r else r) tokens) =
  filter (fun t => String.eqb (Stored.secret t) k) tokens.
Proof.
  intros Hne. induction tokens as [|t tokens IH]; simpl; [reflexivity|].
  destruct (String.eqb (Stored.secret t) secret) eqn:E; simpl.
  - apply String.eqb_eq in E.
    assert (E' : String.eqb (Stored.secret t) k = false)
      by (apply String.eqb_neq; congruence).
    now rewrite E', IH.
  - now rewrite IH.
Qed.

Lemma stored_exists (secret : string) (db : Db) :
  stored secret db = 0 <-> exists_ secret db = false.
Proof.
  unfold stored, exists_. induction (api_tokens db) as [|t l IH]; simpl.
  - tauto.
  - destruct (String.eqb (Stored.secret t) secret); simpl.
    + split; discriminate.
    + exact IH.
Qed.

Lemma returnedRows_length (columnText : list string -> string) (secret : string)
      (e : Date) (db : Db) :
  List.length (returnedRows columnText secret (withExpiry secret e db)) =
  stored secret db.
Proof.
  unfold returnedRows, stored, withExpiry. cbn [api_tokens].
  now rewrite filter_updated_same, !length_map.
Qed.

Lemma returnedRows_In (columnText : list string -> string) (secret : string)
      (e : Date) (db : Db) (r : ITokenRow) :
  In r (returnedRows columnText secret (withExpiry secret e db)) ->
  Row.secret r = secret /\ Row.expires_at r = Some e /\ Row.project r = None /\
  exists t, In t (api_tokens db) /\ Stored.secret t = secret /\
            Row.environment r = option_map columnText (Stored.environment t).
Proof.
  unfold returnedRows, withExpiry. cbn [api_tokens].
  rewrite filter_updated_same, map_map. intros H. apply in_map_iff in H.
  destruct H as (t & <- & Ht). apply filter_In in Ht. destruct Ht as [Ht Hs].
  apply String.eqb_eq in Hs. simpl. repeat split; try assumption.
  exists t. now repeat split.
Qed.

Lemma single_secret {A : Type} (f : A -> string) (s : string) (l : list A) :
  NoDup (map f l) -> (forall x, In x l -> f x = s) ->
  l = [] \/ exists x, l = [x].
Proof.
  destruct l as [|x [|y l]]; intros Hnd Hs.
  - now left.
  - right. now exists x.
  - exfalso. simpl in Hnd. inversion Hnd as [|? ? Hx _]; subst.
    apply Hx. left. rewrite (Hs x), (Hs y); simpl; tauto.
Qed.

Section Expiry.

Variable planner : list ITokenRow -> list ITokenRow.
Variable columnText : list string -> string.
Variable cascade : bool.
Variable fault : Stmt -> Db -> option string.

(** What [setExpiry] does once the storage has carried the update out. *)
Lemma setExpiry_run (secret : string) (expiresAt : Date) (w : World) :
  fault (UpdateExpiresAt secret expiresAt) (tables w) = None ->
  setExpiry planner columnText cascade fault secret expiresAt w =
  let w1 := withTables (withExpiry secret expiresAt (tables w)) w in
  let rows := planner (returnedRows columnText secret
                                    (withExpiry secret expiresAt (tables w))) in
  if Nat.ltb 0 (List.length rows) then
    match toTokens rows with
    | inl err => (inl err, w1)
    | inr tokens => (inr (nth_error tokens 0), w1)
    end
  else (inl (NotFoundError "Could not find api-token."), w1).
Proof.
  intros F. unfold setExpiry, bind, exec. rewrite F.
  cbn [perform]. fold (withExpiry secret expiresAt (tables w)).
  cbn [withTables tables]. unfold returnedRows, throw, ret.
  cbv zeta.
  destruct (Nat.ltb 0 _); [|reflexivity].
  destruct (toTokens _); reflexivity.
Qed.

Lemma setExpiry_refused (secret : string) (expiresAt : Date) (w : World)
      (message : string) :
  fault (UpdateExpiresAt secret expiresAt) (tables w) = Some message ->
  setExpiry planner columnText cascade fault secret expiresAt w =
  (inl (StorageError message), w).
Proof. intros F. unfold setExpiry, bind, exec. now rewrite F. Qed.

Lemma withTables_same (w : World) : withTables (tables w) w = w.
Proof. now destruct w. Qed.

Hypothesis planner_reorders : reorders planner.

Lemma setExpiry_rows_length (secret : string) (expiresAt : Date) (db : Db) :
  List.length (planner (returnedRows columnText secret
                                     (withExpiry secret expiresAt db))) =
  stored secret db.
Proof.
  rewrite (planner_length planner_reorders). apply returnedRows_length.
Qed.

Lemma setExpiry_cases (secret : string) (expiresAt : Date) (w : World) :
  fault (UpdateExpiresAt secret expiresAt) (tables w) = None ->
  (exists_ secret (tables w) = false /\
   setExpiry planner columnText cascade fault secret expiresAt w =
   (inl (NotFoundError "Could not find api-token."), w)) \/
  (exists_ secret (tables w) = true /\
   exists result,
     toTokens (planner (returnedRows columnText secret
                                     (withExpiry secret expiresAt (tables w)))) = result /\
     setExpiry planner columnText cascade fault secret expiresAt w =
     (match result with
      | inl err => inl err
      | inr tokens => inr (nth_error tokens 0)
      end,
      withTables (withExpiry secret expiresAt (tables w)) w)).
Proof.
  intros F. rewrite (@setExpiry_run secret expiresAt w F). cbv zeta.
  rewrite setExpiry_rows_length.
  destruct (exists_ secret (tables w)) eqn:Ex.
  - right. split; [reflexivity|].
    destruct (stored secret (tables w)) as [|n] eqn:En.
    + apply stored_exists in En. congruence.
    + cbn [Nat.ltb Nat.leb]. eexists. split; [reflexivity|].
      destruct (toTokens _); reflexivity.
  - left. split; [reflexivity|].
    pose proof Ex as En. apply stored_exists in En. rewrite En.
    cbn [Nat.ltb Nat.leb]. now rewrite update_no_match, withTables_same.
Qed.

(** The token [setExpiry] returns for a secret that is not an inherited
    name: built from the rows of [api_tokens] alone. *)
Lemma setExpiry_token (secret : string) (expiresAt : Date) (db : Db) :
  inherited secret = false ->
  exists_ secret db = true ->
  exists tk,
    toTokens (planner (returnedRows columnText secret
                                    (withExpiry secret expiresAt db))) = inr [tk] /\
    Token.secret tk = secret /\
    Token.expiresAt tk = Some expiresAt /\
    Token.projects tk = [ALL] /\ Token.project tk = ALL.
Proof.
  intros Hi Hex.
  set (rows := returnedRows columnText secret (withExpiry secret expiresAt db)).
  assert (Hrows : forall r, In r rows ->
            Row.secret r = secret /\ Row.expires_at r = Some expiresAt /\
            Row.project r = None).
  { intros r Hr. apply returnedRows_In in Hr. tauto. }
  assert (Hq : existsb throwing rows = false).
  { apply not_true_is_false. intros H. apply existsb_exists in H.
    destruct H as (r & Hr & Ht). destruct (Hrows r Hr) as (Hs & _).
    unfold throwing in Ht. now rewrite Hs, Hi in Ht. }
  destruct (@read_returns planner planner_reorders rows Hq) as [tks Hret].
  assert (Hsec : forall tk, In tk tks -> Token.secret tk = secret).
  { intros tk Hin.
    destruct (@read_first_row planner planner_reorders rows tks tk Hret Hin)
      as (r0 & Hr0 & Hs0 & _).
    destruct (Hrows r0 Hr0) as (Hs & _). congruence. }
  assert (Hin : In secret (map Token.secret tks)).
  { apply (@read_secret_iff planner planner_reorders rows tks secret Hret).
    split; [exact Hi|].
    assert (Hlen : List.length rows = stored secret db)
      by apply returnedRows_length.
    destruct rows as [|r rs] eqn:E.
    - simpl in Hlen. symmetry in Hlen. apply stored_exists in Hlen. congruence.
    - left. apply (Hrows r). now left. }
  destruct (@single_secret _ Token.secret secret tks) as [Hnil|[tk Hone]].
  - now apply (@toTokens_NoDup _ tks Hret).
  - exact Hsec.
  - subst tks. contradiction.
  - subst tks. exists tk. split; [exact Hret|].
    assert (Htk : In tk [tk]) by now left.
    split; [now apply Hsec|].
    destruct (@read_first_row planner planner_reorders rows [tk] tk Hret Htk)
      as (r0 & Hr0 & _ & Hsc).
    destruct (Hrows r0 Hr0) as (_ & He & _).
    unfold scalars in Hsc. simpl in Hsc. injection Hsc as _ _ _ S4 _.
    split; [congruence|].
    destruct (@toTokens_fields _ [tk] tk Hret Htk)
      as (_ & r1 & rs & _ & _ & Hp & _ & Hj & _).
    assert (Hps : Token.projects tk = [ALL]).
    { rewrite Hp. apply fold_pushScope_none, carried_no_value.
      intros v Hv. apply in_map_iff in Hv. destruct Hv as (r & <- & Hr).
      apply filter_In in Hr. destruct Hr as [Hr _].
      apply (proj1 (@planner_In planner planner_reorders rows r)) in Hr.
      now destruct (Hrows r Hr) as (_ & _ & ->). }
    split; [exact Hps | now rewrite Hj, Hps].
Qed.

(** C5: [setExpiry] throws NotFound only when no stored token row has the
    secret, and does so whenever the storage carries the update out and no
    row has it.  When a row has the secret, which is not a name every object
    inherits, the call returns a token with the new expiry, aggregated from
    the updated rows of [api_tokens] alone: its projects are the wildcard,
    whatever project links the secret has.  A [get] of the secret afterwards
    is refused by the storage. *)
Theorem setExpiry_spec (secret : string) (expiresAt : Date) (w : World) :
  (forall message w',
     setExpiry planner columnText cascade fault secret expiresAt w =
     (inl (NotFoundError message), w') ->
     exists_ secret (tables w) = false) /\
  (fault (UpdateExpiresAt secret expiresAt) (tables w) = None ->
   (exists_ secret (tables w) = false ->
    setExpiry planner columnText cascade fault secret expiresAt w =
    (inl (NotFoundError "Could not find api-token."), w)) /\
   (exists_ secret (tables w) = true ->
    inherited secret = false ->
    exists tk,
      setExpiry planner columnText cascade fault secret expiresAt w =
      (inr (Some tk), withTables (withExpiry secret expiresAt (tables w)) w) /\
      Token.secret tk = secret /\
      Token.expiresAt tk = Some expiresAt /\
      Token.projects tk = [ALL] /\
      Token.project tk = ALL /\
      api_token_project (withExpiry secret expiresAt (tables w)) =
      api_token_project (tables w) /\
      get planner secret (withExpiry secret expiresAt (tables w)) =
      inl (StorageError "column reference secret is ambiguous"))).
Proof.
  split.
  - intros message w'.
    destruct (fault (UpdateExpiresAt secret expiresAt) (tables w)) as [m|] eqn:F.
    + rewrite (@setExpiry_refused secret expiresAt w m F). discriminate.
    + destruct (@setExpiry_cases secret expiresAt w F)
        as [[Hex _]|(_ & result & Hres & ->)]; [now intros _|].
      destruct result as [e|tokens]; [|discriminate].
      apply toTokens_throws in Hres. destruct Hres as [-> _]. discriminate.
  - intros F. split.
    + intros Hex.
      destruct (@setExpiry_cases secret expiresAt w F)
        as [[_ H]|(Hex' & _)]; [exact H | congruence].
    + intros Hex Hi.
      destruct (@setExpiry_cases secret expiresAt w F)
        as [[Hex' _]|(_ & result & Hres & ->)]; [congruence|].
      destruct (@setExpiry_token secret expiresAt (tables w) Hi Hex)
        as (tk & Hret & Hs & He & Hp & Hj).
      rewrite Hret in Hres. subst result. exists tk. cbn [nth_error].
      repeat split; try assumption.
Qed.

(** X11: a [setExpiry] that throws NotFound or the storage's own error
    leaves the tables, the clock and the log as they were; one that throws
    the TypeError of the aggregation does so after the update. *)
Theorem setExpiry_error_unchanged (secret : string) (expiresAt : Date)
        (w w' : World) (err : Error) :
  setExpiry planner columnText cascade fault secret expiresAt w = (inl err, w') ->
  ((exists message, err = NotFoundError message) \/
   (exists message, err = StorageError message) ->
   tables w' = tables w /\ clock w' = clock w /\ logged w' = logged w) /\
  (err = TypeError ->
   tables w' = withExpiry secret expiresAt (tables w) /\
   clock w' = clock w /\ logged w' = logged w).
Proof.
  destruct (fault (UpdateExpiresAt secret expiresAt) (tables w)) as [m|] eqn:F.
  - rewrite (@setExpiry_refused secret expiresAt w m F).
    intros H. injection H as <- <-. split; [now repeat split | discriminate].
  - destruct (@setExpiry_cases secret expiresAt w F)
      as [[_ ->]|(_ & result & Hres & ->)].
    + intros H. injection H as <- <-. split; [now repeat split | discriminate].
    + destruct result as [e|tokens]; [|discriminate].
      apply toTokens_throws in Hres. destruct Hres as [-> _].
      intros H. injection H as <- <-.
      split; [intros [[m Hm]|[m Hm]]; discriminate | now repeat split].
Qed.

(** X10: a [setExpiry] that returns has changed the expiry of the token rows
    of the secret and nothing else: every such row has the new expiry, the
    rows of other secrets, the count, the link tables, the clock and the log
    are as they were, and [exists_] answers as before. *)
Theorem setExpiry_effect (secret : string) (expiresAt : Date) (w w' : World)
        (result : option IApiToken) :
  setExpiry planner columnText cascade fault secret expiresAt w = (inr result, w') ->
  tables w' = withExpiry secret expiresAt (tables w) /\
  (forall t, In t (api_tokens (tables w')) -> Stored.secret t = secret ->
             Stored.expires_at t = Some expiresAt) /\
  (forall k, k <> secret ->
     filter (fun t => String.eqb (Stored.secret t) k) (api_tokens (tables w')) =
     filter (fun t => String.eqb (Stored.secret t) k) (api_tokens (tables w))) /\
  (forall k, exists_ k (tables w') = exists_ k (tables w)) /\
  exists_ secret (tables w) = true /\
  count (tables w') = count (tables w) /\
  api_token_project (tables w') = api_token_project (tables w) /\
  api_token_environment (tables w') = api_token_environment (tables w) /\
  clock w' = clock w /\ logged w' = logged w.
Proof.
  destruct (fault (UpdateExpiresAt secret expiresAt) (tables w)) as [m|] eqn:F.
  - rewrite (@setExpiry_refused secret expiresAt w m F). discriminate.
  - destruct (@setExpiry_cases secret expiresAt w F)
      as [[_ ->]|(Hex & res & Hres & ->)]; [discriminate|].
    intros H. injection H as _ <-. cbn [withTables tables clock logged].
    split; [reflexivity|]. split; [|split; [|split; [|split; [|split]]]].
    + intros t' Ht' Hs. cbn [withExpiry api_tokens] in Ht'.
      apply in_map_iff in Ht'. destruct Ht' as (t & <- & _).
      destruct (String.eqb (Stored.secret t) secret) eqn:E; [reflexivity|].
      apply String.eqb_neq in E. contradiction.
    + intros k Hk. now apply filter_updated_other.
    + intros k. apply exists_after_update.
    + exact Hex.
    + unfold count, withExpiry. cbn [api_tokens]. apply length_map.
    + now repeat split.
Qed.

(** X12: after a [setExpiry] that returns, for a secret that is not a name
    every object inherits, the secret has a token among those
    [getAllActive] returns at an instant exactly when the new expiry is
    strictly later than that instant. *)
Theorem setExpiry_then_active (secret : string) (expiresAt : Date) (w w' : World)
        (result : option IApiToken) (now : Date) (tks : list IApiToken) :
  setExpiry planner columnText cascade fault secret expiresAt w = (inr result, w') ->
  inherited secret = false ->
  getAllActive planner now (tables w') = inr tks ->
  (In secret (map Token.secret tks) <-> (now < expiresAt)%Z).
Proof.
  intros Hset Hi Hret.
  destruct (fault (UpdateExpiresAt secret expiresAt) (tables w)) as [m|] eqn:F;
    [rewrite (@setExpiry_refused secret expiresAt w m F) in Hset; discriminate|].
  destruct (@setExpiry_cases secret expiresAt w F)
    as [[_ H]|(Hex & res & _ & H)]; rewrite H in Hset; [discriminate|].
  injection Hset as _ <-. cbn [withTables tables] in Hret.
  rewrite getAllActive_rows in Hret.
  rewrite (@read_secret_iff planner planner_reorders _ tks secret Hret).
  rewrite activeRows_secrets. cbn [withExpiry api_tokens]. split.
  - intros [_ (t' & Ht' & Hs & Ha)]. apply in_map_iff in Ht'.
    destruct Ht' as (t & <- & _).
    destruct (String.eqb (Stored.secret t) secret) eqn:E.
    + simpl in Ha. now apply Z.ltb_lt.
    + apply String.eqb_neq in E. contradiction.
  - intros Hlt. split; [exact Hi|]. apply exists_spec in Hex.
    destruct Hex as (t & Ht & Hs).
    exists (setExpiresAt (Some expiresAt) t). split; [|split].
    + apply in_map_iff. exists t. split; [|exact Ht].
      apply String.eqb_eq in Hs. now rewrite Hs.
    + exact Hs.
    + simpl. now apply Z.ltb_lt.
Qed.

End Expiry.

Lemma setExpiry_spec_witness :
  setExpiry tableOrder arrayLiteral false noFault "s2" 9%Z world1 =
    (inl (NotFoundError "Could not find api-token."), world1) /\
  exists tk,
    setExpiry tableOrder arrayLiteral false noFault "s1" 9%Z world1 =
      (inr (Some tk), withTables (withExpiry "s1" 9%Z (tables world1)) world1) /\
    Token.secret tk = "s1" /\
    Token.expiresAt tk = Some 9%Z /\
    Token.projects tk = [ALL] /\
    Token.project tk = ALL /\
    api_token_project (withExpiry "s1" 9%Z (tables world1)) =
    api_token_project (tables world1) /\
    get tableOrder "s1" (withExpiry "s1" 9%Z (tables world1)) =
    inl (StorageError "column reference secret is ambiguous").
Proof.
  split.
  - destruct (@setExpiry_spec tableOrder arrayLiteral false noFault
                (fun rows => Permutation_refl rows) "s2" 9%Z world1) as [_ H].
    destruct (H eq_refl) as [Hno _]. apply Hno. reflexivity.
  - destruct (@setExpiry_spec tableOrder arrayLiteral false noFault
                (fun rows => Permutation_refl rows) "s1" 9%Z world1) as [_ H].
    destruct (H eq_refl) as [_ Hyes]. apply Hyes; reflexivity.
Defined.

(** The token [setExpiry] returns for "s1" has lost the two projects the
    secret is linked to, which [getAll] reads from the same tables. *)
Example setExpiry_drops_links :
  setExpiry tableOrder arrayLiteral false noFault "s1" 9%Z world1 =
    (inr (Some (storedS1 "*" ["*"] (Some 9%Z))), world1') /\
  getAll tableOrder (tables world1') =
    inr [storedS1 "p1,p2" ["p1"; "p2"] (Some 9%Z)] /\
  get tableOrder "s1" (tables world1') =
    inl (StorageError "column reference secret is ambiguous").
Proof. repeat split. Qed.

Example setExpiry_storage_error :
  setExpiry tableOrder arrayLiteral false throwsOnUpdate "s2" 9%Z world1 =
  (inl (StorageError "connection lost"), world1).
Proof. reflexivity. Qed.

(** For a stored secret that is an inherited name the update is carried out
    and the aggregation of the returned rows throws. *)
Example setExpiry_inherited_throws :
  setExpiry tableOrder arrayLiteral false noFault "constructor" 9%Z worldConstructor =
  (inl TypeError,
   withTables (withExpiry "constructor" 9%Z (tables worldConstructor)) worldConstructor).
Proof. reflexivity. Qed.

Lemma setExpiry_error_unchanged_witness :
  tables world2 = tables world2 /\ clock world2 = clock world2 /\
  logged world2 = logged world2.
Proof.
  destruct (@setExpiry_error_unchanged tableOrder arrayLiteral false noFault
              (fun rows => Permutation_refl rows) "s9" 9%Z world2 world2
              (NotFoundError "Could not find api-token.")) as [H _].
  - reflexivity.
  - apply H. left. now exists "Could not find api-token.".
Defined.

Lemma setExpiry_effect_witness :
  tables (snd (setExpiry tableOrder arrayLiteral false noFault "s1" 9%Z world2)) =
    withExpiry "s1" 9%Z (tables world2) /\
  count (tables (snd (setExpiry tableOrder arrayLiteral false noFault "s1" 9%Z world2))) =
    count (tables world2).
Proof.
  destruct (@setExpiry_effect tableOrder arrayLiteral false noFault
              (fun rows => Permutation_refl rows) "s1" 9%Z world2
              (snd (setExpiry tableOrder arrayLiteral false noFault "s1" 9%Z world2))
              (Some (storedS1 "*" ["*"] (Some 9%Z))))
    as (H1 & _ & _ & _ & _ & H2 & _).
  - reflexivity.
  - now split.
Defined.

Lemma setExpiry_then_active_witness :
  In "s1" (map Token.secret
             [storedS1 "p1,p2" ["p1"; "p2"] (Some 9%Z);
              Token.mk "s2" "user" "admin" "*" ["*"] "*" ["*"] (Some 7%Z) 5%Z]) <->
  (6 < 9)%Z.
Proof.
  apply (@setExpiry_then_active tableOrder arrayLiteral false noFault
           (fun rows => Permutation_refl rows) "s1" 9%Z world2
           (snd (setExpiry tableOrder arrayLiteral false noFault "s1" 9%Z world2))
           (Some (storedS1 "*" ["*"] (Some 9%Z))) 6%Z); reflexivity.
Defined.

(** * Further properties *)

(** ** Aggregating rows block by block *)

Lemma own_app (k : string) (a1 a2 : Acc) :
  own k (a1 ++ a2) =
  match own k a1 with
  | Some v => Some v
  | None => own k a2
  end.
Proof.
  induction a1 as [|[k0 v0] a1 IH]; simpl; [reflexivity|].
  destruct (String.eqb k k0); [reflexivity | exact IH].
Qed.

Lemma mutate_app (k : string) (f : IApiToken -> IApiToken) (a1 a2 : Acc) :
  own k a1 = None -> mutate k f (a1 ++ a2) = a1 ++ mutate k f a2.
Proof.
  induction a1 as [|[k0 v0] a1 IH]; simpl; [reflexivity|].
  destruct (String.eqb k k0); [discriminate|].
  intros H. now rewrite IH.
Qed.

Lemma reducer_app (a1 a2 : Acc) (r : ITokenRow) :
  own (Row.secret r) a1 = None ->
  reduceOwn (a1 ++ a2) r = a1 ++ reduceOwn a2 r.
Proof.
  intros H. unfold reduceOwn. rewrite own_app, H.
  destruct (own (Row.secret r) a2).
  - now apply mutate_app.
  - rewrite <- app_assoc. now apply mutate_app.
Qed.

Lemma fold_app (rows : list ITokenRow) (a1 a2 : Acc) :
  (forall r, In r rows -> own (Row.secret r) a1 = None) ->
  fold_left reduceOwn rows (a1 ++ a2) =
  a1 ++ fold_left reduceOwn rows a2.
Proof.
  revert a2. induction rows as [|r rows IH]; intros a2 H; simpl.
  - reflexivity.
  - rewrite reducer_app by (apply H; now left).
    apply IH. intros r' Hr'. apply H. now right.
Qed.

Lemma tokensOf_app (rows1 rows2 : list ITokenRow) :
  (forall r1 r2, In r1 rows1 -> In r2 rows2 -> Row.secret r1 <> Row.secret r2) ->
  tokensOf (rows1 ++ rows2) = tokensOf rows1 ++ tokensOf rows2.
Proof.
  intros Hdis. unfold tokensOf.
  rewrite fold_left_app.
  rewrite <- (app_nil_r (fold_left reduceOwn rows1 [])) at 1.
  rewrite fold_app.
  - now rewrite map_app.
  - intros r2 Hr2. apply own_None_keys.
    rewrite keys_fold. simpl. intros Hin. apply filter_In in Hin.
    destruct Hin as [Hin _]. apply firstSeen_In, in_map_iff in Hin.
    destruct Hin as (r1 & Hs & Hr1). now apply (Hdis r1 r2).
Qed.

Lemma indexed_none (acc : Acc) :
  (forall k, In k (map fst acc) -> arrayIndex k = None) -> indexed acc = [].
Proof.
  induction acc as [|kv acc IH]; simpl; intros H; [reflexivity|].
  rewrite (H (fst kv)) by now left. apply IH. intros k Hk. apply H. now right.
Qed.

Lemma values_named (acc : Acc) :
  (forall k, In k (map fst acc) -> arrayIndex k = None) ->
  values acc = map snd acc.
Proof.
  intros H. unfold values, named. rewrite indexed_none by exact H. simpl.
  f_equal. apply filter_all. intros kv Hkv.
  now rewrite (H (fst kv)) by now apply in_map.
Qed.

Lemma toTokens_named (rows : list ITokenRow) (tks : list IApiToken) :
  toTokens rows = inr tks ->
  (forall r, In r rows -> arrayIndex (Row.secret r) = None) ->
  tks = tokensOf (ordinaryRows rows).
Proof.
  intros Hret Hn. rewrite toTokens_spec in Hret.
  destruct (existsb throwing rows); [discriminate|].
  injection Hret as <-. apply values_named.
  intros k Hk. rewrite keys_fold in Hk. simpl in Hk.
  apply filter_In in Hk. destruct Hk as [Hk _].
  apply firstSeen_In, in_map_iff in Hk. destruct Hk as (r & <- & Hr).
  apply Hn. unfold ordinaryRows in Hr. now apply filter_In in Hr.
Qed.

(** X3: when no secret occurs in both of two row sequences and the
    aggregation returns on the first followed by the second, it returns on
    each, and the tokens of the whole are the tokens of the first together
    with the tokens of the second; they come in that order when no secret is
    an array index. *)
Theorem toTokens_app (rows1 rows2 : list ITokenRow) (tks : list IApiToken) :
  (forall r1 r2, In r1 rows1 -> In r2 rows2 -> Row.secret r1 <> Row.secret r2) ->
  toTokens (rows1 ++ rows2) = inr tks ->
  exists tks1 tks2,
    toTokens rows1 = inr tks1 /\
    toTokens rows2 = inr tks2 /\
    Permutation tks (tks1 ++ tks2) /\
    ((forall r, In r (rows1 ++ rows2) -> arrayIndex (Row.secret r) = None) ->
     tks = tks1 ++ tks2).
Proof.
  intros Hdis Hret.
  pose proof (toTokens_quiet _ Hret) as Hq.
  rewrite existsb_app in Hq. apply orb_false_iff in Hq. destruct Hq as [Hq1 Hq2].
  destruct (toTokens_returns rows1 Hq1) as [tks1 H1].
  destruct (toTokens_returns rows2 Hq2) as [tks2 H2].
  exists tks1, tks2. split; [exact H1|]. split; [exact H2|].
  assert (Happ : tokensOf (ordinaryRows (rows1 ++ rows2)) =
                 tokensOf (ordinaryRows rows1) ++ tokensOf (ordinaryRows rows2)).
  { unfold ordinaryRows. rewrite filter_app. apply tokensOf_app.
    intros r1 r2 Hr1 Hr2. apply filter_In in Hr1, Hr2.
    apply Hdis; tauto. }
  split.
  - apply Permutation_trans with (tokensOf (ordinaryRows (rows1 ++ rows2)));
      [now apply toTokens_Permutation|].
    rewrite Happ. apply Permutation_sym, Permutation_app;
      now apply toTokens_Permutation.
  - intros Hn.
    rewrite (toTokens_named _ Hret Hn), Happ.
    rewrite <- (toTokens_named _ H1), <- (toTokens_named _ H2); [reflexivity| |];
      intros r Hr; apply Hn, in_or_app; tauto.
Qed.

Lemma toTokens_app_witness :
  exists tks1 tks2,
    toTokens rowsS1 = inr tks1 /\
    toTokens rowsS2 = inr tks2 /\
    [tokenS1 "p1" ["p1"] "e1,e1" ["e1"; "e1"];
     Token.mk "s2" "user" "admin" "*" ["*"] "*" ["*"] (Some 7%Z) 1%Z] = tks1 ++ tks2.
Proof.
  destruct (@toTokens_app rowsS1 rowsS2
              [tokenS1 "p1" ["p1"] "e1,e1" ["e1"; "e1"];
               Token.mk "s2" "user" "admin" "*" ["*"] "*" ["*"] (Some 7%Z) 1%Z])
    as (tks1 & tks2 & H1 & H2 & _ & H).
  - intros r1 r2 [<-|[<-|[]]] [<-|[]]; discriminate.
  - reflexivity.
  - exists tks1, tks2. split; [exact H1|]. split; [exact H2|]. apply H.
    intros r [<-|[<-|[<-|[]]]]; reflexivity.
Defined.

(** Secrets that are array indices come first, in ascending order, whatever
    the order of the rows. *)
Example integer_secrets_first :
  option_map (map Token.secret)
    (match toTokens [row "b" None None; row "10" None None; row "a" None None;
                     row "9" None None; row "01" None None] with
     | inr tks => Some tks | inl _ => None end)
  = Some ["9"; "10"; "b"; "a"; "01"].
Proof. reflexivity. Qed.

(** ** One token per stored secret *)

Section ReadAll.

Variable planner : list ITokenRow -> list ITokenRow.
Hypothesis planner_reorders : reorders planner.

(** X5: whatever the order in which the storage gives the rows back, when
    [getAll] returns it returns one token per distinct stored secret that is
    not a name every object inherits, whether or not the token has link rows,
    and it does return when no stored secret is such a name; with [secret] a
    key of the table that is then one token per stored row, as many as
    [count] counts. *)
Theorem getAll_secrets (db : Db) :
  (forall tks, getAll planner db = inr tks ->
     NoDup (map Token.secret tks) /\
     (forall s, In s (map Token.secret tks) <->
                inherited s = false /\ exists_ s db = true)) /\
  ((forall t, In t (api_tokens db) -> inherited (Stored.secret t) = false) ->
   exists tks,
     getAll planner db = inr tks /\
     (NoDup (map Stored.secret (api_tokens db)) ->
      Permutation (map Token.secret tks) (map Stored.secret (api_tokens db)) /\
      List.length tks = count db)).
Proof.
  assert (Hone : forall tks, getAll planner db = inr tks ->
     NoDup (map Token.secret tks) /\
     (forall s, In s (map Token.secret tks) <->
                inherited s = false /\ exists_ s db = true)).
  { intros tks Hret. unfold getAll in Hret.
    split; [now apply (@toTokens_NoDup _ tks Hret)|].
    intros s.
    rewrite (@read_secret_iff planner planner_reorders _ tks s Hret).
    now rewrite query_secrets. }
  split; [exact Hone|].
  intros Hord.
  assert (Hq : existsb throwing (makeTokenProjectQuery db) = false).
  { apply not_true_is_false. intros H. apply existsb_exists in H.
    destruct H as (r & Hr & Ht). apply query_In in Hr.
    destruct Hr as (t & Ht' & Hr). apply rowsFor_In in Hr. destruct Hr as (Hs & _).
    unfold throwing in Ht. now rewrite Hs, (Hord t Ht') in Ht. }
  destruct (@read_returns planner planner_reorders _ Hq) as [tks Hret].
  exists tks. split; [exact Hret|].
  intros Hnd. destruct (Hone tks Hret) as [Hnd' Hiff].
  assert (Hperm : Permutation (map Token.secret tks)
                              (map Stored.secret (api_tokens db))).
  { apply NoDup_Permutation; [exact Hnd' | exact Hnd|].
    intros s. rewrite Hiff, exists_spec, in_map_iff. split.
    - intros [_ (t & Ht & Hs)]. now exists t.
    - intros (t & Hs & Ht). split; [rewrite <- Hs; now apply Hord | now exists t]. }
  split; [exact Hperm|].
  unfold count. rewrite <- (length_map Token.secret),
    <- (length_map Stored.secret). now apply Permutation_length.
Qed.

(** X13: a secret with a token among those [getAllActive] returns has one
    among those [getAll] returns, and a secret active at an instant is
    active at every earlier instant. *)
Theorem getAllActive_monotone (now now' : Date) (db : Db) (s : string)
        (active active' every : list IApiToken) :
  getAllActive planner now db = inr active ->
  (getAll planner db = inr every ->
   In s (map Token.secret active) -> In s (map Token.secret every)) /\
  ((now <= now')%Z ->
   getAllActive planner now' db = inr active' ->
   In s (map Token.secret active') -> In s (map Token.secret active)).
Proof.
  intros Hact. rewrite getAllActive_rows in Hact. split.
  - intros Hall. unfold getAll in Hall.
    rewrite (@read_secret_iff planner planner_reorders _ active s Hact),
            (@read_secret_iff planner planner_reorders _ every s Hall).
    rewrite activeRows_secrets, query_secrets, exists_spec.
    intros [Hi (t & Ht & Hs & _)]. split; [exact Hi | now exists t].
  - intros Hle Hact'. rewrite getAllActive_rows in Hact'.
    rewrite (@read_secret_iff planner planner_reorders _ active s Hact),
            (@read_secret_iff planner planner_reorders _ active' s Hact').
    rewrite !activeRows_secrets.
    intros [Hi (t & Ht & Hs & Ha)]. split; [exact Hi|].
    exists t. split; [exact Ht|]. split; [exact Hs|].
    destruct (Stored.expires_at t) as [e|]; [|reflexivity].
    simpl in *. apply Z.ltb_lt in Ha. apply Z.ltb_lt. lia.
Qed.

End ReadAll.

Lemma getAll_secrets_witness :
  exists tks,
    getAll reverseOrder (tables world2) = inr tks /\
    Permutation (map Token.secret tks) ["s1"; "s2"] /\
    List.length tks = count (tables world2).
Proof.
  destruct (@getAll_secrets reverseOrder
              (fun rows => Permutation_sym (Permutation_rev rows)) (tables world2))
    as [_ H].
  destruct H as (tks & Hret & H).
  - intros t [<-|[<-|[]]]; reflexivity.
  - exists tks. split; [exact Hret|]. apply H.
    repeat constructor; simpl; intuition discriminate.
Defined.

Lemma getAllActive_monotone_witness :
  (In "live" (map Token.secret
                [Token.mk "old" "user" "client" "p1" ["p1"] "*" ["*"] (Some 3%Z) 0%Z;
                 Token.mk "live" "user" "client" "p1,p2" ["p1"; "p2"] "*" ["*"]
                          (Some 20%Z) 0%Z;
                 Token.mk "forever" "user" "client" "*" ["*"] "*" ["*"] None 0%Z])) /\
  In "live" (map Token.secret
               [Token.mk "live" "user" "client" "p1,p2" ["p1"; "p2"] "*" ["*"]
                         (Some 20%Z) 0%Z;
                Token.mk "forever" "user" "client" "*" ["*"] "*" ["*"] None 0%Z]).
Proof.
  destruct (@getAllActive_monotone tableOrder
              (fun rows => Permutation_refl rows) 4%Z 10%Z dbExpiry "live"
              [Token.mk "live" "user" "client" "p1,p2" ["p1"; "p2"] "*" ["*"]
                        (Some 20%Z) 0%Z;
               Token.mk "forever" "user" "client" "*" ["*"] "*" ["*"] None 0%Z]
              [Token.mk "live" "user" "client" "p1,p2" ["p1"; "p2"] "*" ["*"]
                        (Some 20%Z) 0%Z;
               Token.mk "forever" "user" "client" "*" ["*"] "*" ["*"] None 0%Z]
              [Token.mk "old" "user" "client" "p1" ["p1"] "*" ["*"] (Some 3%Z) 0%Z;
               Token.mk "live" "user" "client" "p1,p2" ["p1"; "p2"] "*" ["*"]
                        (Some 20%Z) 0%Z;
               Token.mk "forever" "user" "client" "*" ["*"] "*" ["*"] None 0%Z]
              eq_refl) as [H1 H2].
  split.
  - apply H1; [reflexivity | left; reflexivity].
  - apply H2; [lia | reflexivity | left; reflexivity].
Defined.

(** ** What a write leaves alone *)

Lemma filter_flat_map {A B : Type} (p : B -> bool) (q : A -> bool)
      (f : A -> list B) (l : list A) :
  (forall x y, In y (f x) -> p y = q x) ->
  filter p (flat_map f l) = flat_map f (filter q l).
Proof.
  intros H. induction l as [|x l IH]; simpl.
  - reflexivity.
  - rewrite filter_app, IH. destruct (q x) eqn:E; simpl.
    + f_equal. apply filter_all. intros y Hy. now rewrite (H x y Hy).
    + rewrite filter_none; [reflexivity|]. intros y Hy. now rewrite (H x y Hy).
Qed.

(** The rows of one secret come from the stored tokens of that secret. *)
Lemma rowsOf_query (s : string) (db : Db) :
  rowsOf s (makeTokenProjectQuery db) =
  flat_map (rowsFor db)
           (filter (fun t => String.eqb (Stored.secret t) s) (api_tokens db)).
Proof.
  unfold rowsOf. rewrite query_rowsFor. apply filter_flat_map.
  intros t r Hr. apply rowsFor_In in Hr. destruct Hr as [-> _]. reflexivity.
Qed.

(** The rows the join gives a key depend on the token rows of the key and
    on the links joined to the key only. *)
Lemma rows_local (k : string) (db db' : Db) :
  filter (fun t => String.eqb (Stored.secret t) k) (api_tokens db') =
  filter (fun t => String.eqb (Stored.secret t) k) (api_tokens db) ->
  leftJoin k (api_token_project db') = leftJoin k (api_token_project db) ->
  leftJoin k (api_token_environment db') = leftJoin k (api_token_environment db) ->
  rowsOf k (makeTokenProjectQuery db') = rowsOf k (makeTokenProjectQuery db).
Proof.
  intros Ht Hp He. rewrite !rowsOf_query, Ht. apply flat_map_same.
  intros t Hin. apply filter_In in Hin. destruct Hin as [_ Hs].
  apply String.eqb_eq in Hs. unfold rowsFor. now rewrite Hs, Hp, He.
Qed.

Lemma exists_false_filter (s : string) (db : Db) :
  exists_ s db = false <->
  filter (fun t => String.eqb (Stored.secret t) s) (api_tokens db) = [].
Proof.
  unfold exists_. induction (api_tokens db) as [|t l IH]; simpl.
  - tauto.
  - destruct (String.eqb (Stored.secret t) s); simpl.
    + split; discriminate.
    + exact IH.
Qed.

Lemma exists_filter (k : string) (db db' : Db) :
  filter (fun t => String.eqb (Stored.secret t) k) (api_tokens db') =
  filter (fun t => String.eqb (Stored.secret t) k) (api_tokens db) ->
  exists_ k db' = exists_ k db.
Proof.
  intros H.
  destruct (exists_ k db) eqn:E.
  - destruct (exists_ k db') eqn:E'; [reflexivity|].
    apply exists_false_filter in E'. rewrite E' in H. symmetry in H.
    apply exists_false_filter in H. congruence.
  - apply exists_false_filter in E. rewrite E in H.
    now apply exists_false_filter.
Qed.

Lemma filter_other_deleted (k secret : string) (tokens : list ITokenInsert) :
  k <> secret ->
  filter (fun t => String.eqb (Stored.secret t) k)
         (filter (fun r => negb (String.eqb (Stored.secret r) secret)) tokens) =
  filter (fun t => String.eqb (Stored.secret t) k) tokens.
Proof.
  intros Hne. rewrite filter_filter_and. apply filter_ext. intros t.
  destruct (String.eqb (Stored.secret t) k) eqn:E; [|apply andb_false_r].
  apply String.eqb_eq in E. apply String.eqb_neq in Hne.
  rewrite E, Hne. reflexivity.
Qed.

Lemma leftJoin_otherLinks (k secret : string) (links : list (string * string)) :
  k <> secret -> leftJoin k (otherLinks secret links) = leftJoin k links.
Proof.
  intros Hne. unfold leftJoin, otherLinks.
  replace (filter (fun l => String.eqb (fst l) k)
                  (filter (fun l => negb (String.eqb (fst l) secret)) links))
    with (filter (fun l => String.eqb (fst l) k) links); [reflexivity|].
  rewrite filter_filter_and. apply filter_ext. intros l.
  destruct (String.eqb (fst l) k) eqn:E; [|now rewrite andb_false_r].
  apply String.eqb_eq in E. apply String.eqb_neq in Hne.
  rewrite E, Hne. reflexivity.
Qed.

Lemma leftJoin_other (k s : string) (links : list (string * string))
      (l : list string) :
  k <> s -> leftJoin k (links ++ map (pair s) l) = leftJoin k links.
Proof.
  intros Hne. unfold leftJoin. rewrite filter_app.
  rewrite (filter_none _ (map (pair s) l)).
  - now rewrite app_nil_r.
  - intros kv Hkv. apply in_map_iff in Hkv. destruct Hkv as [x [<- _]].
    simpl. apply String.eqb_neq. congruence.
Qed.

Lemma existsb_deleted (secret k : string) (tokens : list ITokenInsert) :
  existsb (fun r => String.eqb (Stored.secret r) k)
          (filter (fun r => String.eqb (Stored.secret r) secret) tokens) =
  String.eqb k secret &&
  existsb (fun r => String.eqb (Stored.secret r) secret) tokens.
Proof.
  induction tokens as [|t tokens IH]; simpl.
  - now rewrite andb_false_r.
  - destruct (String.eqb (Stored.secret t) secret) eqn:E; simpl.
    + rewrite IH. apply String.eqb_eq in E. rewrite E, (String.eqb_sym secret k).
      now destruct (String.eqb k secret).
    + exact IH.
Qed.

Lemma cascaded_secret (secret : string) (db : Db) (links : list (string * string)) :
  cascaded (filter (fun r => String.eqb (Stored.secret r) secret) (api_tokens db))
           links =
  if exists_ secret db then otherLinks secret links else links.
Proof.
  unfold cascaded, otherLinks, exists_.
  destruct (existsb (fun r => String.eqb (Stored.secret r) secret) (api_tokens db))
    eqn:E.
  - apply filter_ext. intros l. now rewrite existsb_deleted, E, andb_true_r.
  - apply filter_all. intros l _. now rewrite existsb_deleted, E, andb_false_r.
Qed.

Section Writes.

Variable ALL_PROJECTS : string.
Variable cascade : bool.
Variable fault : Stmt -> Db -> option string.

(** X7: a [delete] the storage carries out removes every token row of the
    secret: afterwards [exists_] is false for it and the count has gone down
    by the number of rows removed.  The link rows of a secret that had a
    token row go with it when the storage cascades, and the link tables stay
    as they were otherwise; the token rows and the join rows of every other
    secret are as before, and deleting a secret that is not stored changes
    nothing.  A [delete] the storage refuses changes nothing. *)
Theorem delete_effect (secret : string) (w w' : World) :
  (delete cascade fault secret w = (inr tt, w') ->
   exists_ secret (tables w') = false /\
   count (tables w') + stored secret (tables w) = count (tables w) /\
   (forall k, k <> secret ->
      exists_ k (tables w') = exists_ k (tables w) /\
      rowsOf k (makeTokenProjectQuery (tables w')) =
      rowsOf k (makeTokenProjectQuery (tables w))) /\
   (cascade = false ->
    api_token_project (tables w') = api_token_project (tables w) /\
    api_token_environment (tables w') = api_token_environment (tables w)) /\
   (cascade = true -> exists_ secret (tables w) = true ->
    api_token_project (tables w') = otherLinks secret (api_token_project (tables w)) /\
    api_token_environment (tables w') =
    otherLinks secret (api_token_environment (tables w))) /\
   (exists_ secret (tables w) = false -> tables w' = tables w) /\
   clock w' = clock w /\ logged w' = logged w) /\
  (forall err, delete cascade fault secret w = (inl err, w') -> w' = w).
Proof.
  split.
  - intros H. apply exec_ok in H. destruct H as (_ & db & Hdb & ->).
    cbn [perform] in Hdb. cbv zeta in Hdb. rewrite !cascaded_secret in Hdb.
    cbn [withTables tables clock logged].
    assert (Htokens : api_tokens db =
              filter (fun r => negb (String.eqb (Stored.secret r) secret))
                     (api_tokens (tables w)))
      by (destruct cascade; injection Hdb as <-; reflexivity).
    assert (Hp : api_token_project db =
              if cascade && exists_ secret (tables w)
              then otherLinks secret (api_token_project (tables w))
              else api_token_project (tables w))
      by (destruct cascade, (exists_ secret (tables w));
          injection Hdb as <-; reflexivity).
    assert (He : api_token_environment db =
              if cascade && exists_ secret (tables w)
              then otherLinks secret (api_token_environment (tables w))
              else api_token_environment (tables w))
      by (destruct cascade, (exists_ secret (tables w));
          injection Hdb as <-; reflexivity).
    clear Hdb.
    split; [|split; [|split; [|split; [|split; [|split; [|split; reflexivity]]]]]].
    + apply exists_false_filter. rewrite Htokens.
      rewrite filter_filter_and. apply filter_none. intros t _.
      now destruct (String.eqb (Stored.secret t) secret).
    + unfold count, stored. rewrite Htokens.
      apply (length_filter_split (fun r => String.eqb (Stored.secret r) secret)).
    + intros k Hk.
      assert (Hf : filter (fun t => String.eqb (Stored.secret t) k) (api_tokens db) =
                   filter (fun t => String.eqb (Stored.secret t) k)
                          (api_tokens (tables w)))
        by (rewrite Htokens; now apply filter_other_deleted).
      split; [now apply exists_filter|].
      apply rows_local; [exact Hf | rewrite Hp | rewrite He];
        destruct (cascade && exists_ secret (tables w)); try reflexivity;
        now apply leftJoin_otherLinks.
    + intros Hc. rewrite Hc in Hp, He. now split.
    + intros Hc Hex. rewrite Hc, Hex in Hp, He. now split.
    + intros Hex. rewrite Hex, andb_false_r in Hp, He.
      destruct db as [tokens plinks elinks], (tables w) as [tokens0 plinks0 elinks0].
      cbn [api_tokens api_token_project api_token_environment] in *.
      subst. f_equal. apply filter_all. intros t Ht.
      destruct (String.eqb (Stored.secret t) secret) eqn:E; [|reflexivity].
      assert (Hx : exists_ secret (mkDb tokens0 plinks0 elinks0) = true)
        by (apply exists_spec; exists t; split;
            [exact Ht | now apply String.eqb_eq]).
      congruence.
  - intros err H. now apply exec_error in H.
Qed.

(** X8: a [deleteAll] the storage carries out leaves no token row: the count
    is zero, [exists_] finds nothing and [getAll] returns no token, whatever
    the order of the rows.  The link tables stay as they were when the
    storage does not cascade; when it does, the link rows of the secrets
    that had a token row are gone. *)
Theorem deleteAll_effect (w w' : World) :
  deleteAll cascade fault w = (inr tt, w') ->
  api_tokens (tables w') = [] /\
  count (tables w') = 0 /\
  (forall k, exists_ k (tables w') = false) /\
  (forall planner, reorders planner -> getAll planner (tables w') = inr []) /\
  (cascade = false ->
   api_token_project (tables w') = api_token_project (tables w) /\
   api_token_environment (tables w') = api_token_environment (tables w)) /\
  (cascade = true ->
   (forall l, In l (api_token_project (tables w')) <->
              In l (api_token_project (tables w)) /\
              exists_ (fst l) (tables w) = false) /\
   (forall l, In l (api_token_environment (tables w')) <->
              In l (api_token_environment (tables w)) /\
              exists_ (fst l) (tables w) = false)).
Proof.
  intros H. apply exec_ok in H. destruct H as (_ & db & Hdb & ->).
  cbn [perform] in Hdb. cbn [withTables tables].
  assert (Htokens : api_tokens db = [])
    by (destruct cascade; injection Hdb as <-; reflexivity).
  split; [exact Htokens|].
  split; [unfold count; now rewrite Htokens|].
  split; [intros k; unfold exists_; now rewrite Htokens|].
  split.
  - intros planner Hpl. unfold getAll, makeTokenProjectQuery.
    rewrite Htokens. cbn [flat_map].
    assert (Hnil : planner [] = [])
      by (apply Permutation_nil, Permutation_sym, Hpl).
    now rewrite Hnil.
  - split; intros Hc; rewrite Hc in Hdb; injection Hdb as <-.
    + now split.
    + cbn [api_token_project api_token_environment]. unfold cascaded, exists_.
      split; intros l; rewrite filter_In, negb_true_iff; reflexivity.
Qed.

(** ** insert and the other tokens *)

Lemma all_projects_ok (s : string) (l : list string) (w w' : World) :
  all (map (fun project => exec cascade fault (RawInsertProject s project)) l) w
  = (inr tt, w') ->
  w' = withTables (mkDb (api_tokens (tables w))
                        (api_token_project (tables w) ++ map (pair s) l)
                        (api_token_environment (tables w))) w.
Proof.
  revert w. induction l as [|x l IH]; intros w; simpl.
  - unfold ret. intros H. injection H as <-.
    destruct w as [[t p e] c lg]. unfold withTables. simpl. now rewrite app_nil_r.
  - unfold bind.
    destruct (exec cascade fault (RawInsertProject s x) w) as [[err|[]] w1] eqn:E;
      [discriminate|].
    intros H. apply IH in H. apply exec_ok in E. destruct E as (_ & db & Hdb & ->).
    simpl in Hdb. injection Hdb as <-. subst w'.
    unfold withTables. simpl. now rewrite <- app_assoc.
Qed.

Lemma all_environments_ok (s : string) (l : list string) (w w' : World) :
  all (map (fun environment => exec cascade fault (RawInsertEnvironment s environment)) l) w
  = (inr tt, w') ->
  w' = withTables (mkDb (api_tokens (tables w))
                        (api_token_project (tables w))
                        (api_token_environment (tables w) ++ map (pair s) l)) w.
Proof.
  revert w. induction l as [|x l IH]; intros w; simpl.
  - unfold ret. intros H. injection H as <-.
    destruct w as [[t p e] c lg]. unfold withTables. simpl. now rewrite app_nil_r.
  - unfold bind.
    destruct (exec cascade fault (RawInsertEnvironment s x) w) as [[err|[]] w1] eqn:E;
      [discriminate|].
    intros H. apply IH in H. apply exec_ok in E. destruct E as (_ & db & Hdb & ->).
    simpl in Hdb. injection Hdb as <-. subst w'.
    unfold withTables. simpl. now rewrite <- app_assoc.
Qed.

Lemma insert_world (newToken : IApiTokenCreate) (w w' : World) (created : Created.t) :
  insert ALL_PROJECTS cascade fault newToken w = (inr created, w') ->
  w' = withTables (inserted ALL_PROJECTS newToken (clock w) (tables w)) w /\
  Created.newToken created = newToken /\
  Created.createdAt created = clock w.
Proof.
  unfold insert, transaction.
  destruct (insertHandler ALL_PROJECTS cascade fault newToken w)
    as [[e|c] w1] eqn:E; [discriminate|].
  intros H. injection H as <- <-. revert E.
  unfold insertHandler, bind at 1.
  destruct (exec cascade fault (InsertToken (toRow newToken)) w)
    as [[e|[]] w1'] eqn:E1; [discriminate|].
  apply exec_ok in E1. destruct E1 as (_ & db1 & Hdb1 & ->).
  simpl in Hdb1. injection Hdb1 as <-.
  unfold bind at 1, now. unfold bind at 1.
  match goal with
  | |- context [all ?tasks ?w0] => destruct (all tasks w0) as [[e|[]] w2] eqn:E2
  end; [discriminate|].
  apply all_projects_ok in E2. subst w2.
  unfold bind at 1.
  match goal with
  | |- context [all ?tasks ?w0] => destruct (all tasks w0) as [[e|[]] w3] eqn:E3
  end; [discriminate|].
  apply all_environments_ok in E3. subst w3.
  unfold ret. intros H. injection H as <- <-.
  repeat split.
Qed.

(** X9: an [insert] that returns has added one token row, with the instant
    of the storage as its creation instant, and one link row per requested
    project other than the "all projects" sentinel and per requested
    environment other than the wildcard.  Afterwards [exists_] is true for
    its secret; the token rows and the join rows of every other secret, the
    clock and the log are as before, and the returned object carries the
    request unchanged and that creation instant. *)
Theorem insert_effect (newToken : IApiTokenCreate) (w w' : World)
        (created : Created.t) :
  insert ALL_PROJECTS cascade fault newToken w = (inr created, w') ->
  tables w' = inserted ALL_PROJECTS newToken (clock w) (tables w) /\
  exists_ (Create.secret newToken) (tables w') = true /\
  count (tables w') = S (count (tables w)) /\
  (forall k, k <> Create.secret newToken ->
     exists_ k (tables w') = exists_ k (tables w) /\
     rowsOf k (makeTokenProjectQuery (tables w')) =
     rowsOf k (makeTokenProjectQuery (tables w))) /\
  clock w' = clock w /\
  logged w' = logged w /\
  Created.newToken created = newToken /\
  Created.createdAt created = clock w.
Proof.
  intros H. apply insert_world in H. destruct H as (-> & Hreq & Hat).
  cbn [withTables tables clock logged].
  split; [reflexivity|].
  split; [|split; [|split; [|now repeat split]]].
  - unfold exists_, inserted. cbn [api_tokens].
    rewrite existsb_app. cbn [existsb Stored.secret].
    rewrite String.eqb_refl. apply orb_true_iff. right. reflexivity.
  - unfold count, inserted. cbn [api_tokens]. rewrite length_app. simpl. lia.
  - intros k Hk.
    assert (Hf : filter (fun t => String.eqb (Stored.secret t) k)
                   (api_tokens (inserted ALL_PROJECTS newToken (clock w) (tables w))) =
                 filter (fun t => String.eqb (Stored.secret t) k)
                   (api_tokens (tables w))).
    { unfold inserted. cbn [api_tokens]. rewrite filter_app.
      cbn [filter Stored.secret].
      assert (E : String.eqb (Create.secret newToken) k = false)
        by (apply String.eqb_neq; congruence).
      rewrite E. apply app_nil_r. }
    split.
    + now apply exists_filter.
    + apply rows_local; [exact Hf | |];
        unfold inserted; cbn [api_token_project api_token_environment];
        now apply leftJoin_other.
Qed.

End Writes.

(** ** insert followed by get *)

(** C2: [get] filters the join of the three tables on the column [secret]
    without naming a table, and all three have that column: the storage
    refuses the query, whatever the key and whatever is stored.  After an
    [insert] that returns, the token row of the secret is stored and [get]
    of the secret throws instead of returning the token. *)
Theorem get_after_insert_rejected :
  (forall planner key db,
     get planner key db =
     inl (StorageError "column reference secret is ambiguous")) /\
  (forall ALL_PROJECTS planner cascade fault newToken w created w',
     insert ALL_PROJECTS cascade fault newToken w = (inr created, w') ->
     exists_ (Create.secret newToken) (tables w') = true /\
     get planner (Create.secret newToken) (tables w') =
     inl (StorageError "column reference secret is ambiguous")).
Proof.
  split; [reflexivity|].
  intros ALL_PROJECTS planner cascade fault newToken w created w' H.
  split; [|reflexivity].
  apply insert_world in H. destruct H as (-> & _ & _).
  cbn [withTables tables]. unfold exists_, inserted. cbn [api_tokens].
  rewrite existsb_app. cbn [existsb Stored.secret].
  rewrite String.eqb_refl. apply orb_true_iff. right. reflexivity.
Qed.

Lemma get_after_insert_rejected_witness :
  exists_ "s1" (tables world1) = true /\
  get tableOrder "s1" (tables world1) =
  inl (StorageError "column reference secret is ambiguous").
Proof.
  destruct get_after_insert_rejected as [_ H].
  apply (H "*" tableOrder false noFault requestS1 world0
           (Created.mk requestS1 "p1,p2" "*" 5%Z) world1).
  reflexivity.
Defined.

(** The example of the specification, with the wildcard as the "all
    projects" sentinel: the insert stores the rows, [getAll] reads the token
    back as expected, and [get] throws. *)
Example insert_then_get_example :
  resolve joinTables "secret" = inl "column reference secret is ambiguous" /\
  insert "*" false noFault requestS1 world0 =
    (inr (Created.mk requestS1 "p1,p2" "*" 5%Z), world1) /\
  getAll tableOrder (tables world1) =
    inr [storedS1 "p1,p2" ["p1"; "p2"] None] /\
  get tableOrder "s1" (tables world1) =
    inl (StorageError "column reference secret is ambiguous").
Proof. repeat split. Qed.

Lemma delete_effect_witness :
  exists w',
    delete true noFault "s1" world2 = (inr tt, w') /\
    exists_ "s1" (tables w') = false /\
    count (tables w') + 1 = 2 /\
    exists_ "s2" (tables w') = exists_ "s2" (tables world2) /\
    api_token_project (tables w') = [].
Proof.
  eexists. split; [reflexivity|].
  destruct (@delete_effect true noFault "s1" world2
              (snd (delete true noFault "s1" world2))) as [H _].
  destruct (H eq_refl) as (H1 & H2 & H3 & _ & H4 & _).
  split; [exact H1|]. split; [exact H2|]. split.
  - apply (H3 "s2"). discriminate.
  - destruct (H4 eq_refl eq_refl) as [Hp _]. exact Hp.
Defined.

(** Without a cascade the link rows of a deleted token stay behind. *)
Example delete_without_cascade :
  delete false noFault "s1" world1 =
  (inr tt, mkWorld (mkDb [] [("s1", "p1"); ("s1", "p2")] []) 5%Z []).
Proof. reflexivity. Qed.

Lemma deleteAll_effect_witness :
  api_tokens (tables (snd (deleteAll true noFault world2))) = [] /\
  count (tables (snd (deleteAll true noFault world2))) = 0 /\
  getAll reverseOrder (tables (snd (deleteAll true noFault world2))) = inr [] /\
  (In ("s1", "p1") (api_token_project (tables (snd (deleteAll true noFault world2)))) <->
   In ("s1", "p1") (api_token_project (tables world2)) /\
   exists_ "s1" (tables world2) = false).
Proof.
  destruct (@deleteAll_effect true noFault world2
              (snd (deleteAll true noFault world2)) eq_refl)
    as (H1 & H2 & _ & H3 & _ & H4).
  split; [exact H1|]. split; [exact H2|]. split.
  - apply H3. intros rows. apply Permutation_sym, Permutation_rev.
  - destruct (H4 eq_refl) as [Hp _]. apply (Hp ("s1", "p1")).
Defined.

(** With a cascade the link rows of the deleted tokens are gone. *)
Example deleteAll_with_cascade :
  deleteAll true noFault world2 = (inr tt, mkWorld emptyDb 5%Z []) /\
  deleteAll false noFault world2 =
    (inr tt, mkWorld (mkDb [] [("s1", "p1"); ("s1", "p2")] []) 5%Z []).
Proof. split; reflexivity. Qed.

Lemma insert_effect_witness :
  tables world1 = inserted "*" requestS1 (clock world0) (tables world0) /\
  exists_ "s1" (tables world1) = true /\
  count (tables world1) = S (count (tables world0)) /\
  (forall k, k <> "s1" ->
     exists_ k (tables world1) = exists_ k (tables world0) /\
     rowsOf k (makeTokenProjectQuery (tables world1)) =
     rowsOf k (makeTokenProjectQuery (tables world0))) /\
  clock world1 = clock world0 /\
  logged world1 = logged world0 /\
  Created.newToken (Created.mk requestS1 "p1,p2" "*" 5%Z) = requestS1 /\
  Created.createdAt (Created.mk requestS1 "p1,p2" "*" 5%Z) = clock world0.
Proof.
  apply (@insert_effect "*" false noFault requestS1 world0 world1
           (Created.mk requestS1 "p1,p2" "*" 5%Z)).
  reflexivity.
Defined.

(** ** What is read back from the link tables *)

Section ReadLinks.

Variable planner : list ITokenRow -> list ITokenRow.
Hypothesis planner_reorders : reorders planner.

(** X15: whatever the order in which the storage gives the rows back, the
    projects of a token [getAll] returns have, apart from the wildcard
    itself, exactly the non-empty projects linked to its secret as members,
    and its environments exactly the non-empty environments linked to it. *)
Theorem getAll_reads_links (db : Db) (tks : list IApiToken) (tk : IApiToken) :
  getAll planner db = inr tks ->
  In tk tks ->
  (forall p, p <> ALL ->
     (In p (Token.projects tk) <->
      p <> "" /\ In (Token.secret tk, p) (api_token_project db))) /\
  (forall e, e <> ALL ->
     (In e (Token.environments tk) <->
      e <> "" /\ In (Token.secret tk, e) (api_token_environment db))).
Proof.
  intros Hret Hin. unfold getAll in Hret.
  apply (@read_links_of planner planner_reorders db (fun _ => true)
           (makeTokenProjectQuery db) tks tk); try assumption.
  intros r. rewrite query_In. split.
  - intros (t & Ht & Hr). now exists t.
  - intros (t & Ht & _ & Hr). now exists t.
Qed.

Variable ALL_PROJECTS : string.
Variable cascade : bool.
Variable fault : Stmt -> Db -> option string.

(** X16: after an [insert] that returns, of a secret no link row mentioned
    before, the token [getAll] returns for the secret has, apart from the
    wildcard itself, exactly the requested projects that are neither empty
    nor the "all projects" sentinel as the members of its projects, and
    exactly the requested non-empty environments as the members of its
    environments. *)
Theorem insert_then_getAll (newToken : IApiTokenCreate) (w w' : World)
        (created : Created.t) (tks : list IApiToken) (tk : IApiToken) :
  insert ALL_PROJECTS cascade fault newToken w = (inr created, w') ->
  (forall p, ~ In (Create.secret newToken, p) (api_token_project (tables w))) ->
  (forall e, ~ In (Create.secret newToken, e) (api_token_environment (tables w))) ->
  getAll planner (tables w') = inr tks ->
  In tk tks ->
  Token.secret tk = Create.secret newToken ->
  (forall p, p <> ALL ->
     (In p (Token.projects tk) <->
      p <> "" /\ p <> ALL_PROJECTS /\
      In p (match Create.projects newToken with Some l => l | None => [] end))) /\
  (forall e, e <> ALL ->
     (In e (Token.environments tk) <->
      e <> "" /\
      In e (match Create.environments newToken with Some l => l | None => [] end))).
Proof.
  intros Hins Hp He Hret Hin Hs.
  apply insert_world in Hins. destruct Hins as (-> & _ & _).
  cbn [withTables tables] in Hret.
  unfold getAll in Hret.
  destruct (@read_links_of planner planner_reorders
              (inserted ALL_PROJECTS newToken (clock w) (tables w)) (fun _ => true)
              (makeTokenProjectQuery
                 (inserted ALL_PROJECTS newToken (clock w) (tables w)))
              tks tk) as [Rp Re]; try assumption.
  { intros r. rewrite query_In. split.
    - intros (t & Ht & Hr). now exists t.
    - intros (t & Ht & _ & Hr). now exists t. }
  rewrite Hs in Rp, Re. unfold inserted in Rp, Re.
  cbn [api_token_project api_token_environment] in Rp, Re.
  split.
  - intros p Hne. rewrite (Rp p Hne), in_app_iff, in_map_iff.
    unfold linkedProjects. split.
    + intros [Hx [Hold|(q & Hq & Hl)]]; [now apply Hp in Hold|].
      injection Hq as <-. apply filter_In in Hl. destruct Hl as [Hl Hall].
      split; [exact Hx|]. split; [|exact Hl].
      now apply String.eqb_neq, negb_true_iff.
    + intros (Hx & Hall & Hl). split; [exact Hx|]. right. exists p.
      split; [reflexivity|]. apply filter_In. split; [exact Hl|].
      now apply negb_true_iff, String.eqb_neq.
  - intros e Hne. rewrite (Re e Hne), in_app_iff, in_map_iff.
    unfold linkedEnvironments. split.
    + intros [Hx [Hold|(q & Hq & Hl)]]; [now apply He in Hold|].
      injection Hq as <-. apply filter_In in Hl. destruct Hl as [Hl _].
      now split.
    + intros (Hx & Hl). split; [exact Hx|]. right. exists e.
      split; [reflexivity|]. apply filter_In. split; [exact Hl|].
      now apply negb_true_iff, String.eqb_neq.
Qed.

End ReadLinks.

Lemma getAll_reads_links_witness :
  (In "p2" ["p2"; "p1"] <->
   "p2" <> "" /\ In ("s1", "p2") (api_token_project (tables world2))) /\
  (In "e1" ["*"] <->
   "e1" <> "" /\ In ("s1", "e1") (api_token_environment (tables world2))).
Proof.
  destruct (@getAll_reads_links reverseOrder
              (fun rows => Permutation_sym (Permutation_rev rows))
              (tables world2)
              [Token.mk "s2" "user" "admin" "*" ["*"] "*" ["*"] (Some 7%Z) 5%Z;
               Token.mk "s1" "user" "client" "p2,p1" ["p2"; "p1"] "*" ["*"] None 5%Z]
              (Token.mk "s1" "user" "client" "p2,p1" ["p2"; "p1"] "*" ["*"] None 5%Z))
    as [Hp He].
  - reflexivity.
  - right. left. reflexivity.
  - split; [apply Hp | apply He]; discriminate.
Defined.

Lemma insert_then_getAll_witness :
  (In "p2" ["p1"; "p2"] <-> "p2" <> "" /\ "p2" <> "*" /\ In "p2" ["p1"; "p2"]) /\
  (In "e1" ["*"] <-> "e1" <> "" /\ In "e1" ["*"]).
Proof.
  destruct (@insert_then_getAll tableOrder
              (fun rows => Permutation_refl rows) "*" false noFault
              requestS1 world0 world1 (Created.mk requestS1 "p1,p2" "*" 5%Z)
              [storedS1 "p1,p2" ["p1"; "p2"] None]
              (storedS1 "p1,p2" ["p1"; "p2"] None)) as [Hp He].
  - reflexivity.
  - intros p [].
  - intros e [].
  - reflexivity.
  - left. reflexivity.
  - reflexivity.
  - split; [apply Hp | apply He]; discriminate.
Defined.

(** With the rows in the opposite order the same tables read back with the
    tokens and the projects the other way round. *)
Example getAll_reversed :
  getAll tableOrder (tables world2) =
    inr [Token.mk "s1" "user" "client" "p1,p2" ["p1"; "p2"] "*" ["*"] None 5%Z;
         Token.mk "s2" "user" "admin" "*" ["*"] "*" ["*"] (Some 7%Z) 5%Z] /\
  getAll reverseOrder (tables world2) =
    inr [Token.mk "s2" "user" "admin" "*" ["*"] "*" ["*"] (Some 7%Z) 5%Z;
         Token.mk "s1" "user" "client" "p2,p1" ["p2"; "p1"] "*" ["*"] None 5%Z].
Proof. split; reflexivity. Qed.
